(** * Upwork job dashboard: the extraction and normalisation engine

    A shallow embedding of [src/functions.py], of the pipeline of
    [src/1-data_prep.py] and of the skill chart of
    [src/2-create_dashboard.py].

    Conventions of the embedding.
    - A Python [str] is a [string]; the characters are the ASCII ones, on
      which Python's Unicode-aware [\d], [\s], [str.lower], [str.strip] and
      [str.title] coincide with the definitions below.
    - A missing cell ([np.nan] in an object column, [None]) is [None]; a
      present text is [Some s].
    - A Python [float] is a [pyfloat]: [NaN] or an exact rational [Num q].
      Rounding and overflow of binary64 are outside the model.
    - An exception is a value: fallible code returns a [result].
    - A column of a table is the list of its cells, a table the list of its
      rows; the dtypes of pandas are not modelled. *)

From Stdlib Require Import Ascii String QArith Qcanon.
From stdpp Require Import base option list strings gmap numbers.

Open Scope string_scope.
Open Scope nat_scope.
Open Scope list_scope.

(** ** Results and floats *)

Inductive exn : Set :=
| ValueError.

Inductive result (A : Type) : Type :=
| Ok (a : A)
| Raise (e : exn).
Arguments Ok {A} a.
Arguments Raise {A} e.

#[global] Instance result_ret : MRet result := λ A a, Ok a.
#[global] Instance result_bind : MBind result := λ A B f m,
  match m with
  | Ok a => f a
  | Raise e => Raise e
  end.
#[global] Instance result_fmap : FMap result := λ A B f m,
  match m with
  | Ok a => Ok (f a)
  | Raise e => Raise e
  end.

Inductive pyfloat : Set :=
| NaN
| Num (q : Qc).

Definition isnan (x : pyfloat) : bool :=
  match x with
  | NaN => true
  | Num _ => false
  end.

(** [present x]: the cell holds a value ([notna]). *)
Definition present (x : pyfloat) : Prop := x ≠ NaN.

(** [x * y]: NaN as soon as a factor is. *)
Definition fmul (x y : pyfloat) : pyfloat :=
  match x, y with
  | Num a, Num b => Num (a * b)%Qc
  | _, _ => NaN
  end.

Definition of_Z (z : Z) : Qc := Q2Qc (inject_Z z).
Definition of_nat (n : nat) : Qc := of_Z (Z.of_nat n).

(** [np.nanmean] of a list: the mean of the entries that are not NaN, NaN
    when there is none. *)
Definition nan_values (l : list pyfloat) : list Qc :=
  omap (λ x, match x with Num q => Some q | NaN => None end) l.

Definition nanmean (l : list pyfloat) : pyfloat :=
  match nan_values l with
  | [] => NaN
  | vs => Num (foldr Qcplus 0%Qc vs / of_nat (length vs))%Qc
  end.

(** ** Characters and strings *)

Definition code (c : ascii) : nat := nat_of_ascii c.

(** [\d] *)
Definition is_digit (c : ascii) : bool :=
  bool_decide (48 ≤ code c ≤ 57).

(** [\s]: tab, line feed, vertical tab, form feed, carriage return, the four
    separators 0x1c..0x1f and the space. *)
Definition is_space (c : ascii) : bool :=
  bool_decide (9 ≤ code c ≤ 13) || bool_decide (28 ≤ code c ≤ 32).

(** [[\d,\.]] *)
Definition is_amount_char (c : ascii) : bool :=
  is_digit c || bool_decide (c = ","%char) || bool_decide (c = "."%char).

Definition is_upper (c : ascii) : bool := bool_decide (65 ≤ code c ≤ 90).
Definition is_lower (c : ascii) : bool := bool_decide (97 ≤ code c ≤ 122).
Definition is_cased (c : ascii) : bool := is_upper c || is_lower c.

Definition lower_char (c : ascii) : ascii :=
  if is_upper c then ascii_of_nat (code c + 32) else c.
Definition upper_char (c : ascii) : ascii :=
  if is_lower c then ascii_of_nat (code c - 32) else c.

Definition chars (s : string) : list ascii := list_ascii_of_string s.
Definition str (l : list ascii) : string := string_of_list_ascii l.

(** [s.lower()] *)
Definition lower (s : string) : string := str (lower_char <$> chars s).

(** [p in s] on character lists. *)
Fixpoint starts_with (p s : list ascii) : bool :=
  match p, s with
  | [], _ => true
  | a :: p', b :: s' => bool_decide (a = b) && starts_with p' s'
  | _ :: _, [] => false
  end.

Fixpoint find_sub (p s : list ascii) : bool :=
  starts_with p s ||
  match s with
  | [] => false
  | _ :: s' => find_sub p s'
  end.

(** [p in s] *)
Definition contains (p s : string) : bool := find_sub (chars p) (chars s).

(** [s.replace(c, '')] for a single character [c]. *)
Definition remove_char (c : ascii) (l : list ascii) : list ascii :=
  filter (λ x, x ≠ c) l.

(** [s.strip()] *)
Fixpoint lstrip (l : list ascii) : list ascii :=
  match l with
  | c :: l' => if is_space c then lstrip l' else l
  | [] => []
  end.

Definition strip (s : string) : string :=
  str (reverse (lstrip (reverse (lstrip (chars s))))).

(** [s.title()]: a cased character becomes upper case after an uncased one
    (or at the start) and lower case after a cased one. *)
Fixpoint title_go (prev_cased : bool) (l : list ascii) : list ascii :=
  match l with
  | [] => []
  | c :: l' =>
      (if prev_cased then lower_char c else upper_char c)
        :: title_go (is_cased c) l'
  end.

Definition title (s : string) : string := str (title_go false (chars s)).

(** ** The fragment of [re] the program uses

    Backtracking matcher in continuation-passing style: greedy quantifiers
    try the longest repetition first and give characters back one at a time
    when the rest of the pattern fails, as [re] does. *)

Inductive regex : Type :=
| Chr (c : ascii)                 (* a literal character *)
| Lit (l : string)                (* a literal word *)
| Cat (r1 r2 : regex)             (* r1 r2 *)
| Opt (r : regex)                 (* r? , (?:r)? *)
| Star (p : ascii → bool)         (* [class]* *)
| Plus (p : ascii → bool)         (* [class]+ *)
| Grp (n : nat) (r : regex)       (* the n-th capturing group (r) *)
| Eos.                            (* $ *)

(** The captured groups of a match object. *)
Abbreviation groups := (gmap nat (list ascii)).

Fixpoint strip_prefix (p s : list ascii) : option (list ascii) :=
  match p, s with
  | [], _ => Some s
  | a :: p', b :: s' => if decide (a = b) then strip_prefix p' s' else None
  | _ :: _, [] => None
  end.

Fixpoint star {A} (p : ascii → bool) (s : list ascii)
    (k : list ascii → option A) : option A :=
  match s with
  | c :: s' =>
      if p c then
        match star p s' k with
        | Some a => Some a
        | None => k s
        end
      else k s
  | [] => k s
  end.

Fixpoint exec (r : regex) (s : list ascii) (g : groups)
    (k : list ascii → groups → option groups) : option groups :=
  match r with
  | Chr c =>
      match s with
      | c' :: s' => if decide (c = c') then k s' g else None
      | [] => None
      end
  | Lit l =>
      match strip_prefix (chars l) s with
      | Some s' => k s' g
      | None => None
      end
  | Cat r1 r2 => exec r1 s g (λ s' g', exec r2 s' g' k)
  | Opt r1 =>
      match exec r1 s g k with
      | Some m => Some m
      | None => k s g
      end
  | Star p => star p s (λ s', k s' g)
  | Plus p =>
      match s with
      | c :: s' => if p c then star p s' (λ s'', k s'' g) else None
      | [] => None
      end
  | Grp n r1 =>
      exec r1 s g (λ s' g', k s' (<[n := take (length s - length s') s]> g'))
  | Eos =>
      match s with
      | [] => k s g
      | [c] => if decide (c = "010"%char) then k s g else None
      | _ => None
      end
  end.

(** [re.match(r, s)]: the match is anchored at the start of [s]. *)
Definition match_at (r : regex) (s : list ascii) : option groups :=
  exec r s ∅ (λ _ g, Some g).

(** [re.search(r, s)]: the leftmost position where a match starts. *)
Fixpoint search (r : regex) (s : list ascii) : option groups :=
  match match_at r s with
  | Some g => Some g
  | None =>
      match s with
      | _ :: s' => search r s'
      | [] => None
      end
  end.

Definition re_search (r : regex) (text : string) : option groups :=
  search r (chars text).
Definition re_match (r : regex) (text : string) : option groups :=
  match_at r (chars text).

(** [m.group(n)]: [None] when the group took no part in the match. *)
Definition group (m : groups) (n : nat) : option (list ascii) := m !! n.

Infix "⋅" := Cat (at level 60, right associativity).

(** ** [float] on the captured texts

    The texts passed to [float] are captures of [\d+] or of [[\d,\.]+] with
    the commas removed, so they consist of digits and dots. On such texts
    [float] accepts [d+], [d+.], [d+.d+] and [.d+] and raises [ValueError] on
    anything else (the empty text, a lone dot, two dots). *)

Definition digit_val (c : ascii) : Z := Z.of_nat (code c - 48).

Definition digits_val (ds : list ascii) : Z :=
  foldl (λ acc c, 10 * acc + digit_val c)%Z 0%Z ds.

Fixpoint span (p : ascii → bool) (s : list ascii) : list ascii * list ascii :=
  match s with
  | c :: s' =>
      if p c then let '(a, b) := span p s' in (c :: a, b) else ([], s)
  | [] => ([], [])
  end.

Definition py_float (s : list ascii) : result Qc :=
  let '(ip, rest) := span is_digit s in
  match rest with
  | [] =>
      match ip with
      | [] => Raise ValueError
      | _ => Ok (of_Z (digits_val ip))
      end
  | c :: fp =>
      if decide (c = "."%char) then
        if forallb is_digit fp && negb (bool_decide (ip = [] ∧ fp = [])) then
          Ok (of_Z (digits_val (ip ++ fp)) / of_Z (10 ^ Z.of_nat (length fp)))%Qc
        else Raise ValueError
      else Raise ValueError
  end.

(** ** [functions.py] *)

(** [r"\$([\d,\.]+)(?:\s*-\s*\$([\d,\.]+))?"] *)
Definition hourly_rate_re : regex :=
  Chr "$" ⋅ Grp 1 (Plus is_amount_char) ⋅
  Opt (Star is_space ⋅ Chr "-" ⋅ Star is_space ⋅ Chr "$" ⋅
       Grp 2 (Plus is_amount_char)).

Definition parse_hourly_rate (text : option string)
    : result (pyfloat * pyfloat) :=
  match text with
  | None => Ok (NaN, NaN)
  | Some text =>
      match re_search hourly_rate_re text with
      | Some m =>
          min_rate ← py_float (remove_char "," (default [] (group m 1)));
          max_rate ←
            match group m 2 with
            | Some (c :: g2) => py_float (remove_char "," (c :: g2))
            | _ => Ok min_rate
            end;
          Ok (Num min_rate, Num max_rate)
      | None => Ok (NaN, NaN)
      end
  end.

(** [r"(\d+)\+?\s*hrs?/week"] *)
Definition hours_re : regex :=
  Grp 1 (Plus is_digit) ⋅ Opt (Chr "+") ⋅ Star is_space ⋅
  Lit "hr" ⋅ Opt (Chr "s") ⋅ Lit "/week".

Definition parse_hours_per_week (text : option string) : result pyfloat :=
  match text with
  | None => Ok NaN
  | Some text =>
      match re_search hours_re text with
      | Some m => Num <$> py_float (default [] (group m 1))
      | None =>
          if contains "less than" (lower text) then Ok (Num (of_Z 25))
          else Ok NaN
      end
  end.

(** [r"(\d+)\s*to\s*(\d+)\s*months?"] *)
Definition months_range_re : regex :=
  Grp 1 (Plus is_digit) ⋅ Star is_space ⋅ Lit "to" ⋅ Star is_space ⋅
  Grp 2 (Plus is_digit) ⋅ Star is_space ⋅ Lit "month" ⋅ Opt (Chr "s").

(** [r"(\d+)\s*months?"] *)
Definition months_re : regex :=
  Grp 1 (Plus is_digit) ⋅ Star is_space ⋅ Lit "month" ⋅ Opt (Chr "s").

Definition parse_duration_weeks (text : option string) : result pyfloat :=
  match text with
  | None => Ok NaN
  | Some text =>
      match re_search months_range_re text with
      | Some m =>
          a ← py_float (default [] (group m 1));
          b ← py_float (default [] (group m 2));
          let avg_months := ((a + b) / of_Z 2)%Qc in
          Ok (Num (avg_months * of_Z 4)%Qc)
      | None =>
          match re_search months_re text with
          | Some m =>
              n ← py_float (default [] (group m 1));
              Ok (Num (n * of_Z 4)%Qc)
          | None =>
              if contains "less than 1 month" (lower text)
              then Ok (Num (of_Z 2))
              else Ok NaN
          end
      end
  end.

(** [r"\$([\d,\.]+)"] *)
Definition fixed_price_re : regex :=
  Chr "$" ⋅ Grp 1 (Plus is_amount_char).

Definition parse_fixed_price (text : option string) : result pyfloat :=
  match text with
  | None => Ok NaN
  | Some text =>
      match re_search fixed_price_re text with
      | Some m => Num <$> py_float (remove_char "," (default [] (group m 1)))
      | None => Ok NaN
      end
  end.

(** A row of the table after the selection of [cols_to_keep]. *)
Record posting : Type := Posting {
  job_title : option string;
  job_url : option string;
  search_term : option string;
  hourly_or_fixed : option string;
  est_time_or_budget : option string;
  duration_or_budget : option string;
  job_description : option string;
  skills : list (option string)      (* skill_1 .. skill_13 *)
}.

Definition estimate_total_pay (row : posting) : result pyfloat :=
  match hourly_or_fixed row with
  | Some t =>
      if contains "hourly" (lower t) then
        '(min_rate, max_rate) ← parse_hourly_rate (Some t);
        let avg_rate := nanmean [min_rate; max_rate] in
        hours_per_week ← parse_hours_per_week (duration_or_budget row);
        weeks ← parse_duration_weeks (duration_or_budget row);
        let hours_per_week :=
          if isnan hours_per_week then Num (of_Z 30) else hours_per_week in
        let weeks := if isnan weeks then Num (of_Z 8) else weeks in
        Ok (fmul (fmul avg_rate hours_per_week) weeks)
      else if contains "fixed" (lower t) then
        parse_fixed_price (duration_or_budget row)
      else Ok NaN
  | None => Ok NaN
  end.

(** The result is ['Hourly'], ['Fixed'] or [np.nan] (here [None]). *)
Definition get_pay_type (text : option string) : option string :=
  match text with
  | Some t =>
      if contains "hourly" (lower t) then Some "Hourly"
      else if contains "fixed" (lower t) then Some "Fixed"
      else None
  | None => None
  end.

(** A row of the table once the derived columns are added and
    [hourly_or_fixed] and [duration_or_budget] are dropped. *)
Record job : Type := Job {
  j_title : option string;
  j_url : option string;
  j_search_term : option string;
  pay_type : option string;
  hourly_rate_min : pyfloat;
  hourly_rate_max : pyfloat;
  est_hours_per_week : pyfloat;
  est_duration_weeks : pyfloat;
  fixed_price : pyfloat;
  estimated_total_pay : pyfloat;
  j_description : option string;
  j_skills : list (option string)
}.

Definition set_search_term (v : option string) (r : job) : job :=
  Job (j_title r) (j_url r) v (pay_type r) (hourly_rate_min r)
    (hourly_rate_max r) (est_hours_per_week r) (est_duration_weeks r)
    (fixed_price r) (estimated_total_pay r) (j_description r) (j_skills r).

Definition set_skills (v : list (option string)) (r : job) : job :=
  Job (j_title r) (j_url r) (j_search_term r) (pay_type r)
    (hourly_rate_min r) (hourly_rate_max r) (est_hours_per_week r)
    (est_duration_weeks r) (fixed_price r) (estimated_total_pay r)
    (j_description r) v.

(** [Series.ffill()]: [last] is the most recent value seen that is present. *)
Fixpoint ffill_from (last : option string) (col : list (option string))
    : list (option string) :=
  match col with
  | [] => []
  | v :: col' =>
      let v' := match v with Some _ => v | None => last end in
      v' :: ffill_from v' col'
  end.

Definition ffill (col : list (option string)) : list (option string) :=
  ffill_from None col.

(** [Series.str.lower()]: a missing cell stays missing. *)
Definition str_lower (col : list (option string)) : list (option string) :=
  (λ v : option string, lower <$> v) <$> col.

(** [Series.map(d)] for a dict [d]: a value that is no key of [d], and a
    missing cell, become NaN. *)
Definition series_map (d : gmap string string) (col : list (option string))
    : list (option string) :=
  (λ v : option string, v ≫= (d !!.)) <$> col.

Definition search_term_map : gmap string string :=
  list_to_map [
    ("ai", "AI");
    ("artificial", "AI");
    ("intelligent", "AI");
    ("machine", "ML");
    ("learning", "ML");
    ("statistics", "statistics");
    ("engineer", "data engineering");
    ("data", "data engineering");
    ("python", "data engineering")
  ].

(** [df['search_term'] = col] *)
Definition assign_search_term (df : list job) (col : list (option string))
    : list job :=
  zip_with (λ r v, set_search_term v r) df col.

Definition standardize_search_term_column (df : list job) : list job :=
  let df := assign_search_term df (ffill (j_search_term <$> df)) in
  let df := assign_search_term df (str_lower (j_search_term <$> df)) in
  assign_search_term df (series_map search_term_map (j_search_term <$> df)).

Definition non_skills : gset string :=
  list_to_set [
    "female"; "budget"; "company"; "project"; "article"; "review";
    "advertisement"; "advertising"; "media"; "english";
    "accuracy verification"; "casual tone"; "presentation"; "resume";
    "error detection"; "draft documentation"; "product knowledge";
    "client management"; "communication skills";
    "critical thinking skills"; "personal computer"; "smartphone";
    "phone communication"; "accounts payable"; "accounts receivable";
    "customer experience"; "heap"; "review"; "scientist"; "engineer";
    "engineering"; "learn"; "learning"
  ].

Definition canonical_map : gmap string string :=
  list_to_map [
    ("ai", "Artificial Intelligence");
    ("artificial", "Artificial Intelligence");
    ("artificial intelligence", "Artificial Intelligence");
    ("machine", "Machine Learning");
    ("machine learning", "Machine Learning");
    ("ml", "Machine Learning");
    ("python", "Python");
    ("data", "Data Science");
    ("data science", "Data Science");
    ("statistics", "Statistics");
    ("statistical", "Statistics");
    ("statistic", "Statistics");
    ("deep learning", "Deep Learning");
    ("nlp", "Natural Language Processing");
    ("natural language processing", "Natural Language Processing")
  ].

(** [r'^\+\d+$'], used with [re.match], which anchors the match at the start
    of the text, where [^] holds. *)
Definition plus_digits_re : regex :=
  Chr "+" ⋅ Plus is_digit ⋅ Eos.

Definition clean_and_standardize_skill (skill : option string)
    : option string :=
  match skill with
  | None => None
  | Some skill =>
      if bool_decide (strip skill = "") then None
      else if bool_decide (is_Some (re_match plus_digits_re (strip skill)))
      then None
      else
        let skill_lower := lower (strip skill) in
        if bool_decide (skill_lower ∈ non_skills) then None
        else
          match canonical_map !! skill_lower with
          | Some canonical => Some canonical
          | None => Some (title (strip skill))
          end
  end.

(** ** [1-data_prep.py] *)

(** [df.drop_duplicates("job_url")]: the first row of each URL is kept. *)
Fixpoint drop_duplicates_from (seen : list (option string))
    (df : list posting) : list posting :=
  match df with
  | [] => []
  | r :: df' =>
      if bool_decide (job_url r ∈ seen) then drop_duplicates_from seen df'
      else r :: drop_duplicates_from (job_url r :: seen) df'
  end.

Definition drop_duplicates (df : list posting) : list posting :=
  drop_duplicates_from [] df.

(** The six statements under "Add new columns", for one row. *)
Definition add_columns (r : posting) : result job :=
  let pt := get_pay_type (hourly_or_fixed r) in
  '(rate_min, rate_max) ← parse_hourly_rate (hourly_or_fixed r);
  hours ← parse_hours_per_week (duration_or_budget r);
  weeks ← parse_duration_weeks (duration_or_budget r);
  price ← parse_fixed_price (duration_or_budget r);
  total ← estimate_total_pay r;
  Ok (Job (job_title r) (job_url r) (search_term r) pt rate_min rate_max
        hours weeks price total (job_description r) (skills r)).

(** The reordering of the columns names no [skill_5]: that column is lost. *)
Definition reorder_columns (r : job) : job :=
  set_skills (delete 4 (j_skills r)) r.

Definition clean_skills (r : job) : job :=
  set_skills (clean_and_standardize_skill <$> j_skills r) r.

(** The statements under "Add new columns" on the whole table. On a table
    without rows [apply] gives an empty [Series], not a table of two columns,
    and the assignment to the two rate columns raises [ValueError]:
    "Columns must be same length as key". *)
Definition add_new_columns (df : list posting) : result (list job) :=
  match df with
  | [] => Raise ValueError
  | _ :: _ => mapM add_columns df
  end.

(** The whole script, from the table restricted to [cols_to_keep] to the
    table written to [upwork-cleaned.csv]. *)
Definition data_prep (df : list posting) : result (list job) :=
  let df := drop_duplicates df in
  df ← add_new_columns df;
  let df := filter (λ r, isnan (estimated_total_pay r) = false) df in
  let df := reorder_columns <$> df in
  let df := standardize_search_term_column df in
  Ok (clean_skills <$> df).

(** ** [2-create_dashboard.py]: the skills of the selected jobs *)

(** [df[df['search_term'] == selected]], or the whole table for 'All'. *)
Definition filtered_df (selected : string) (df : list job) : list job :=
  if decide (selected = "All") then df
  else filter (λ r, j_search_term r = Some selected) df.

(** [filtered_df[[col, 'estimated_total_pay']].dropna()] for the skill
    column number [c]: the rows where the skill and the estimate are both
    present. *)
Definition col_skills (c : nat) (df : list job) : list (string * Qc) :=
  omap (λ r, match j_skills r !! c, estimated_total_pay r with
             | Some (Some skill), Num pay => Some (skill, pay)
             | _, _ => None
             end) df.

(** The list [skill_pay], gathered column after column. *)
Definition skill_pay (ncols : nat) (df : list job) : list (string * Qc) :=
  c ← seq 0 ncols; filter (λ sp, sp.1 ≠ "") (col_skills c df).

(** One turn of the loop over [skill_pay]: [pay_sum[skill] += pay] and
    [pay_count[skill] += 1] on two [defaultdict]s. *)
Definition add_pay (acc : gmap string Qc * gmap string nat)
    (sp : string * Qc) : gmap string Qc * gmap string nat :=
  (<[sp.1 := (default 0%Qc (acc.1 !! sp.1) + sp.2)%Qc]> acc.1,
   <[sp.1 := default 0 (acc.2 !! sp.1) + 1]> acc.2).

Definition pay_totals (sps : list (string * Qc))
    : gmap string Qc * gmap string nat :=
  foldl add_pay (∅, ∅) sps.

(** [{skill: pay_sum[skill]/pay_count[skill] for skill in pay_sum}]; [None]
    stands for the [ZeroDivisionError] of a count that is 0. *)
Definition avg_pay (pay_sum : gmap string Qc) (pay_count : gmap string nat)
    : option (gmap string Qc) :=
  if decide (map_Forall (λ skill _, default 0 (pay_count !! skill) ≠ 0) pay_sum)
  then Some (map_imap (λ skill total,
               Some (total / of_nat (default 0%nat (pay_count !! skill)))%Qc)
               pay_sum)
  else None.

(** * The vocabulary of the properties *)

(** ** Occurrences of a word *)

(** [occurs w text]: the word [w] is a substring of [text]. *)
Definition occurs (w text : string) : Prop :=
  ∃ pre post, text = pre +:+ w +:+ post.

(** [occurs_ci w text]: some substring of [text] reads [w] once put in lower
    case: [w] occurs in [text] whatever the case of the letters. *)
Definition occurs_ci (w text : string) : Prop :=
  ∃ pre u post, text = pre +:+ u +:+ post ∧ lower u = w.

(** ** Matches of a pattern *)

(** [matches r s g s' g']: the pattern [r] can consume a prefix of [s] and
    leave [s'], turning the captures [g] into [g']. The relation has no
    priorities: it holds of every way the pattern can match. *)
Inductive matches : regex → list ascii → groups → list ascii → groups → Prop :=
| M_Chr c s g :
    matches (Chr c) (c :: s) g s g
| M_Lit l s g :
    matches (Lit l) (chars l ++ s) g s g
| M_Cat r1 r2 s g s1 g1 s2 g2 :
    matches r1 s g s1 g1 → matches r2 s1 g1 s2 g2 →
    matches (Cat r1 r2) s g s2 g2
| M_Opt_some r s g s' g' :
    matches r s g s' g' → matches (Opt r) s g s' g'
| M_Opt_none r s g :
    matches (Opt r) s g s g
| M_Star p a s g :
    forallb p a = true → matches (Star p) (a ++ s) g s g
| M_Plus p a s g :
    a ≠ [] → forallb p a = true → matches (Plus p) (a ++ s) g s g
| M_Grp n r s g s' g' :
    matches r s g s' g' →
    matches (Grp n r) s g s' (<[n := take (length s - length s') s]> g')
| M_Eos_end g :
    matches Eos [] g [] g
| M_Eos_newline g :
    matches Eos ["010"%char] g ["010"%char] g.

(** ** Runs of characters *)

(** [s] does not go on with a character of the class [p]. *)
Definition ends_run (p : ascii → bool) (s : list ascii) : Prop :=
  match s with
  | c :: _ => p c = false
  | [] => True
  end.

(** An integer: a non-empty run of digits. *)
Definition digits (ds : list ascii) : Prop :=
  ds ≠ [] ∧ forallb is_digit ds = true.

(** An amount: a non-empty run of digits, commas and dots. *)
Definition amount (a : list ascii) : Prop :=
  a ≠ [] ∧ forallb is_amount_char a = true.

(** A run of white space, possibly empty. *)
Definition blanks (ws : list ascii) : Prop :=
  forallb is_space ws = true.

(** ** The reference definition of the estimate of an hourly posting

    After the words of the specification: the mean of the parsed rates that
    are present, times the hours per week (30 when missing), times the weeks
    (8 when missing); the estimate is missing when no rate is present. *)

(** The mean of the two rates, a missing one left out. *)
Definition avg_rate (mn mx : pyfloat) : pyfloat :=
  match mn, mx with
  | Num a, Num b => Num ((a + b) / of_Z 2)%Qc
  | Num a, NaN => Num a
  | NaN, Num b => Num b
  | NaN, NaN => NaN
  end.

(** The value [x], or the fallback [d] when [x] is missing. *)
Definition or_fallback (d : Z) (x : pyfloat) : Qc :=
  match x with
  | Num q => q
  | NaN => of_Z d
  end.

(** The estimate, from the pay-type text and the duration text. *)
Definition estimate_hourly_ref (pay_text : string)
    (budget_text : option string) : result pyfloat :=
  '(mn, mx) ← parse_hourly_rate (Some pay_text);
  hours ← parse_hours_per_week budget_text;
  weeks ← parse_duration_weeks budget_text;
  Ok (match avg_rate mn mx with
      | Num avg => Num (avg * or_fallback 30 hours * or_fallback 8 weeks)%Qc
      | NaN => NaN
      end).

(** ** The pay columns of a record *)

(** The invariant as the data model words it: the hourly rates are present
    only in an hourly record, the fixed price only in a fixed-price one. *)
Definition present_only_for_pay_type (r : job) : Prop :=
  (present (hourly_rate_min r) → pay_type r = Some "Hourly") ∧
  (present (hourly_rate_max r) → pay_type r = Some "Hourly") ∧
  (present (fixed_price r) → pay_type r = Some "Fixed").

(** The five pay columns of a record. *)
Definition pay_columns (r : job)
    : option string * pyfloat * pyfloat * pyfloat * pyfloat :=
  (pay_type r, hourly_rate_min r, hourly_rate_max r, fixed_price r,
   estimated_total_pay r).

(** ** What the patterns of the parsers look for *)

(** A dollar sign followed by a character of an amount starts [s]. *)
Definition dollar_amount_at (s : list ascii) : bool :=
  match s with
  | c :: c' :: _ => bool_decide (c = "$"%char) && is_amount_char c'
  | _ => false
  end.

(** [rest] goes on with a dash, a dollar sign and the amount [a2], then
    [rest2]; blanks may surround the dash. *)
Definition second_amount (rest a2 rest2 : list ascii) : Prop :=
  ∃ ws1 ws2,
    rest = ws1 ++ "-"%char :: ws2 ++ "$"%char :: a2 ++ rest2 ∧
    blanks ws1 ∧ blanks ws2 ∧ amount a2.

(** [u] starts with the unit of the hours per week: an optional "+", blanks,
    "hr" or "hrs", and "/week". *)
Definition hours_unit (u : list ascii) : Prop :=
  ∃ plus ws s rest,
    u = plus ++ ws ++ chars "hr" ++ s ++ chars "/week" ++ rest ∧
    (plus = [] ∨ plus = chars "+") ∧ blanks ws ∧ (s = [] ∨ s = chars "s").

(** An integer followed by the unit of the hours per week starts [s]. *)
Definition hours_at (s : list ascii) : Prop :=
  ∃ ds u, s = ds ++ u ∧ digits ds ∧ hours_unit u.

(** [u] starts with the unit of a number of months: blanks and "month". *)
Definition months_unit (u : list ascii) : Prop :=
  ∃ ws rest, u = ws ++ chars "month" ++ rest ∧ blanks ws.

(** A single number of months starts [s]. *)
Definition months_at (s : list ascii) : Prop :=
  ∃ n u, s = n ++ u ∧ digits n ∧ months_unit u.

(** [u] goes on with "to" and the upper end [b] of a range of months. *)
Definition range_tail (u b : list ascii) : Prop :=
  ∃ ws1 ws2 u', u = ws1 ++ chars "to" ++ ws2 ++ b ++ u' ∧
    blanks ws1 ∧ blanks ws2 ∧ digits b ∧ months_unit u'.

(** A range of months starts [s]. *)
Definition range_at (s : list ascii) : Prop :=
  ∃ a b u, s = a ++ u ∧ digits a ∧ range_tail u b.

(** ** Example rows *)

(** A record with the search term [v] and nothing else. *)
Definition job_of_search_term (v : option string) : job :=
  Job None None v None NaN NaN NaN NaN NaN NaN None [].

(** Two well-formed rows: an hourly posting whose duration text quotes an
    amount, and a fixed-price posting whose pay-type text quotes one. *)
Definition hourly_posting_with_amount : posting :=
  Posting (Some "Data pipeline") (Some "https://www.upwork.com/jobs/1")
    (Some "data") (Some "Hourly: $20.00 - $40.00") None
    (Some "3 to 6 months, bonus of $500.00") None [].

Definition fixed_posting_with_amount : posting :=
  Posting (Some "Churn model") (Some "https://www.upwork.com/jobs/2")
    (Some "machine") (Some "Fixed-price: $750.00") None
    (Some "$750.00") None [].

(** ** Signs, amounts and letters *)

(** [nonneg x]: the cell is missing or holds a number that is not negative. *)
Definition nonneg (x : pyfloat) : Prop :=
  match x with
  | NaN => True
  | Num q => (0 ≤ q)%Qc
  end.

(** The text has a dollar sign followed by a character of an amount. *)
Definition has_amount (text : string) : Prop :=
  ∃ i, dollar_amount_at (drop i (chars text)) = true.

(** [c'] is [c] up to the case: the relation between a character and what
    [lower] or [title] makes of it. *)
Definition same_letter (c c' : ascii) : Prop :=
  lower_char c' = lower_char c.

(** The text is made of ASCII characters, the ones below 128. *)
Definition ascii_text (s : string) : Prop :=
  Forall (λ c, code c < 128) (chars s).

(** Neither the first nor the last character is white space. *)
Definition trimmed (l : list ascii) : Prop :=
  ends_run is_space l ∧ ends_run is_space (reverse l).

(** A "+" followed by an integer, the continuation marker of the source. *)
Definition plus_digits (l : list ascii) : Prop :=
  ∃ ds, digits ds ∧ l = "+"%char :: ds.

(** ** Rows of the tables *)

(** The four buckets of the search terms. *)
Definition buckets : list string :=
  ["AI"; "ML"; "statistics"; "data engineering"].

(** A cell that is missing or holds one of the values [vs]. *)
Definition missing_or_in (vs : list string) (cell : option string) : Prop :=
  match cell with
  | None => True
  | Some v => v ∈ vs
  end.

(** The row has an estimate: [estimate_total_pay] returns a number. *)
Definition has_estimate (p : posting) : bool :=
  match estimate_total_pay p with
  | Ok (Num _) => true
  | _ => false
  end.

(** Row [i] of the table is [p], and no row above it has the URL of [p]. *)
Definition first_of_url (df : list posting) (i : nat) (p : posting) : Prop :=
  df !! i = Some p ∧
  ∀ j q, j < i → df !! j = Some q → job_url q ≠ job_url p.

(** The rows that pass the filter on the estimate. *)
Definition with_estimate (js : list job) : list job :=
  filter (λ r, isnan (estimated_total_pay r) = false) js.

(** A posting of unknown pay type, and a later row of the same URL that
    has an estimate. *)
Definition unknown_posting : posting :=
  Posting (Some "Dashboard") (Some "https://www.upwork.com/jobs/3")
    (Some "statistics") (Some "Negotiable") None (Some "$100.00") None
    [Some "tableau"; Some "sql"; Some "+3"].

Definition late_duplicate : posting :=
  Posting (Some "Dashboard") (Some "https://www.upwork.com/jobs/3")
    None (Some "Fixed-price") None (Some "$100.00") None
    [Some "tableau"; Some "sql"; Some "+3"].

(** A posting with its thirteen skills. *)
Definition posting_with_skills : posting :=
  Posting (Some "Forecasting") (Some "https://www.upwork.com/jobs/4")
    None (Some "Hourly: $50.00") None (Some "30+ hrs/week") None
    [Some "python"; Some "ML"; Some "time series"; Some " statistics";
     Some "Tableau"; Some "sql"; Some "+7"; None; None; None; None; None;
     None].

(** A row whose amount ends its sentence. *)
Definition posting_with_stop : posting :=
  Posting (Some "Scraper") (Some "https://www.upwork.com/jobs/5")
    None (Some "Fixed-price") None (Some "Budget is $750.00.") None [].

(** ** The pays of a skill *)

(** The pays gathered for one skill, in the order of [skill_pay]. *)
Definition pays_of (skill : string) (sps : list (string * Qc)) : list Qc :=
  snd <$> filter (λ sp, sp.1 = skill) sps.

(** The sum of a list of pays, from the left as the loop adds them. *)
Definition sum_pays (l : list Qc) : Qc := foldl Qcplus 0%Qc l.

(** * Properties *)

Ltac qc_eq :=
  repeat match goal with
  | |- @eq Qc _ _ => apply Qc_is_canon; vm_compute; reflexivity
  | |- _ => reflexivity
  | |- _ => f_equal
  end.

(** ** Strings and character lists *)

Section string_facts.

Lemma chars_str l : chars (str l) = l.
Proof. apply list_ascii_of_string_of_list_ascii. Qed.

Lemma str_chars s : str (chars s) = s.
Proof. apply string_of_list_ascii_of_string. Qed.

Lemma chars_inj s t : chars s = chars t → s = t.
Proof. intros H. rewrite <- (str_chars s), <- (str_chars t). by rewrite H. Qed.

Lemma chars_app s t : chars (s +:+ t) = chars s ++ chars t.
Proof.
  induction s as [|c s IH]; simpl; [done|].
  unfold chars in *. simpl. by rewrite IH.
Qed.

Lemma str_app l1 l2 : str (l1 ++ l2) = str l1 +:+ str l2.
Proof. apply chars_inj. by rewrite chars_app, !chars_str. Qed.

Lemma chars_lower s : chars (lower s) = lower_char <$> chars s.
Proof. apply chars_str. Qed.

Lemma lower_app s t : lower (s +:+ t) = lower s +:+ lower t.
Proof. apply chars_inj. by rewrite chars_app, !chars_lower, chars_app, fmap_app. Qed.

Lemma starts_with_spec p s : starts_with p s = true ↔ ∃ post, s = p ++ post.
Proof.
  revert s. induction p as [|a p IH]; intros s; simpl.
  - split; eauto.
  - destruct s as [|b s].
    + split; [done|]. by intros [post ?].
    + rewrite andb_true_iff, bool_decide_eq_true, IH. split.
      * intros [-> [post ->]]. eauto.
      * intros [post [= -> ->]]. eauto.
Qed.

Lemma find_sub_spec p s :
  find_sub p s = true ↔ ∃ pre post, s = pre ++ p ++ post.
Proof.
  induction s as [|c s IH]; simpl; rewrite orb_true_iff, starts_with_spec.
  - split.
    + intros [[post ->]|?]; [|done]. by exists [], post.
    + intros (pre & post & H). left.
      destruct pre; [by exists post|done].
  - rewrite IH. split.
    + intros [[post ->]|(pre & post & ->)]; [by exists [], post|].
      by exists (c :: pre), post.
    + intros ([|c' pre] & post & H); simplify_eq/=; [left|right]; eauto.
Qed.

End string_facts.

Section contains_facts.

Lemma contains_spec w text : contains w text = true ↔ occurs w text.
Proof.
  unfold contains, occurs. rewrite find_sub_spec. split.
  - intros (pre & post & H). exists (str pre), (str post).
    apply chars_inj. by rewrite !chars_app, !chars_str.
  - intros (pre & post & ->). exists (chars pre), (chars post).
    by rewrite !chars_app.
Qed.

Lemma contains_lower_spec w text :
  contains w (lower text) = true ↔ occurs_ci w text.
Proof.
  rewrite contains_spec. unfold occurs, occurs_ci. split.
  - intros (pre & post & H).
    apply (f_equal chars) in H. rewrite chars_lower, !chars_app in H.
    apply fmap_app_inv in H as (l1 & l23 & Hpre & H & Ht).
    symmetry in H. apply fmap_app_inv in H as (l2 & l3 & Hw & Hpost & ->).
    exists (str l1), (str l2), (str l3). split.
    + apply chars_inj. by rewrite !chars_app, !chars_str.
    + apply chars_inj. by rewrite chars_lower, chars_str.
  - intros (pre & u & post & -> & <-).
    exists (lower pre), (lower post). by rewrite !lower_app.
Qed.

Lemma contains_lower_false w text :
  contains w (lower text) = false ↔ ¬ occurs_ci w text.
Proof. rewrite <- contains_lower_spec. by destruct (contains _ _). Qed.

End contains_facts.

(** ** The pay type *)

(** C9. [get_pay_type] answers ['Hourly'] when "hourly" occurs in the text
    whatever the case, else ['Fixed'] when "fixed" occurs whatever the case,
    else the missing value (the pay type is unknown); a missing text has an
    unknown pay type. *)
Theorem get_pay_type_spec :
  get_pay_type None = None ∧
  ∀ text : string,
    (occurs_ci "hourly" text → get_pay_type (Some text) = Some "Hourly") ∧
    (¬ occurs_ci "hourly" text → occurs_ci "fixed" text →
       get_pay_type (Some text) = Some "Fixed") ∧
    (¬ occurs_ci "hourly" text → ¬ occurs_ci "fixed" text →
       get_pay_type (Some text) = None).
Proof.
  split; [done|]. intros text. unfold get_pay_type.
  repeat split.
  - intros H. apply contains_lower_spec in H. by rewrite H.
  - intros H1 H2. apply contains_lower_false in H1.
    apply contains_lower_spec in H2. by rewrite H1, H2.
  - intros H1 H2. apply contains_lower_false in H1, H2. by rewrite H1, H2.
Qed.

Lemma get_pay_type_spec_witness :
  get_pay_type (Some "HOURLY, not fixed") = Some "Hourly" ∧
  get_pay_type (Some "Fixed-price") = Some "Fixed" ∧
  get_pay_type (Some "Negotiable") = None.
Proof.
  assert (Hno : ∀ w text, contains w (lower text) = false → ¬ occurs_ci w text)
    by (intros w text; apply contains_lower_false).
  split; [|split].
  - apply (proj2 get_pay_type_spec "HOURLY, not fixed").
    by exists "", "HOURLY", ", not fixed".
  - apply (proj2 get_pay_type_spec "Fixed-price").
    + by apply Hno.
    + by exists "", "Fixed", "-price".
  - apply (proj2 get_pay_type_spec "Negotiable"); by apply Hno.
Defined.

(** ** The matcher *)

Section matcher_facts.

Lemma strip_prefix_spec p s s' : strip_prefix p s = Some s' ↔ s = p ++ s'.
Proof.
  revert s. induction p as [|a p IH]; intros s; simpl.
  - split; congruence.
  - destruct s as [|b s]; [done|].
    case_decide; subst; [rewrite IH|]; split; congruence.
Qed.

Lemma star_sound {A} p s (k : list ascii → option A) m :
  star p s k = Some m →
  ∃ a s', s = a ++ s' ∧ forallb p a = true ∧ k s' = Some m.
Proof.
  induction s as [|c s IH]; simpl.
  - intros H. by exists [], [].
  - destruct (p c) eqn:Hc; [|intros H; by exists [], (c :: s)].
    destruct (star p s k) eqn:Hs.
    + intros [= ->]. destruct (IH eq_refl) as (a & s' & -> & Ha & Hk).
      exists (c :: a), s'. simpl. by rewrite Hc.
    + intros H. by exists [], (c :: s).
Qed.

Lemma star_complete {A} p a s' (k : list ascii → option A) :
  forallb p a = true → star p (a ++ s') k = None → k s' = None.
Proof.
  induction a as [|c a IH]; simpl.
  - intros _. destruct s' as [|c s']; simpl; [done|].
    destruct (p c); [|done]. by destruct (star p s' k).
  - intros [Hc Ha]%andb_true_iff. rewrite Hc.
    destruct (star p (a ++ s') k) eqn:Hs; [done|]. intros _. by apply IH.
Qed.

Lemma exec_sound r s g k m :
  exec r s g k = Some m →
  ∃ s' g', matches r s g s' g' ∧ k s' g' = Some m.
Proof.
  revert s g k.
  induction r as [c|l|r1 IH1 r2 IH2|r IH|p|p|n r IH|]; intros s g k; simpl.
  - destruct s as [|c' s]; [done|]. case_decide; [subst|done].
    intros H. exists s, g. split; [constructor|done].
  - destruct (strip_prefix (chars l) s) as [s'|] eqn:Hp; [|done].
    apply strip_prefix_spec in Hp as ->.
    intros H. exists s', g. split; [constructor|done].
  - intros (s1 & g1 & H1 & H)%IH1. apply IH2 in H as (s2 & g2 & H2 & H).
    exists s2, g2. split; [by econstructor|done].
  - destruct (exec r s g k) eqn:Hr.
    + intros [= ->]. apply IH in Hr as (s' & g' & H1 & H).
      exists s', g'. split; [by constructor|done].
    + intros H. exists s, g. split; [by apply M_Opt_none|done].
  - intros (a & s' & -> & Ha & H)%star_sound.
    exists s', g. split; [by constructor|done].
  - destruct s as [|c s]; [done|]. destruct (p c) eqn:Hc; [|done].
    intros (a & s' & -> & Ha & H)%star_sound.
    exists s', g. split; [|done].
    apply (M_Plus p (c :: a)); [done|]. simpl. by rewrite Hc.
  - intros (s' & g' & H1 & H)%IH.
    eexists s', _. split; [by constructor|done].
  - destruct s as [|c [|c' s]]; [| |done].
    + intros H. exists [], g. split; [constructor|done].
    + case_decide; [subst|done].
      intros H. eexists _, g. split; [constructor|done].
Qed.

Lemma exec_complete r s g s' g' k :
  matches r s g s' g' → exec r s g k = None → k s' g' = None.
Proof.
  intros H. revert k.
  induction H as [c s g|l s g|r1 r2 s g s1 g1 s2 g2 _ IH1 _ IH2
    |r s g s' g' _ IH|r s g|p a s g Ha|p a s g Hne Ha
    |n r s g s' g' _ IH|g|g]; intros k; simpl.
  - by rewrite decide_True.
  - assert (strip_prefix (chars l) (chars l ++ s) = Some s) as ->
      by by apply strip_prefix_spec.
    done.
  - intros H. apply IH2. by apply (IH1 (λ s' g', exec r2 s' g' k)).
  - destruct (exec r s g k) eqn:Hr; [done|]. intros _. by apply IH.
  - by destruct (exec r s g k).
  - intros H. by apply (star_complete p a s (λ s', k s' g)).
  - destruct a as [|c a]; [done|]. simpl in *.
    apply andb_true_iff in Ha as [-> Ha].
    intros H. by apply (star_complete p a s (λ s', k s' g)).
  - intros H. by apply (IH (λ s' g', k s' (<[n:=take (length s - length s') s]> g'))).
  - done.
  - done.
Qed.

(** What a match leaves is a suffix of what it was given. *)
Lemma matches_suffix r s g s' g' :
  matches r s g s' g' → ∃ a, s = a ++ s'.
Proof.
  induction 1 as [c s g|l s g|r1 r2 s g s1 g1 s2 g2 _ [a1 ->] _ [a2 ->]
    |r s g s' g' _ IH|r s g|p a s g Ha|p a s g Hne Ha
    |n r s g s' g' _ IH|g|g]; eauto.
  - by exists [c].
  - exists (a1 ++ a2). by rewrite <- (assoc (++)).
  - by exists [].
  - by exists [].
  - by exists [].
Qed.

Lemma match_at_sound r s m :
  match_at r s = Some m → ∃ s', matches r s ∅ s' m.
Proof.
  intros (s' & g' & H & [= ->])%exec_sound. eauto.
Qed.

Lemma match_at_complete r s s' m :
  matches r s ∅ s' m → is_Some (match_at r s).
Proof.
  intros H. destruct (match_at r s) eqn:Hm; [done|].
  by apply (exec_complete _ _ _ _ _ _ H) in Hm.
Qed.

Lemma search_sound r s m :
  search r s = Some m →
  ∃ pre suf s', s = pre ++ suf ∧ matches r suf ∅ s' m.
Proof.
  induction s as [|c s IH]; simpl.
  - destruct (match_at r []) eqn:Hm; [|done].
    intros [= ->]. apply match_at_sound in Hm as [s' H]. by exists [], [], s'.
  - destruct (match_at r (c :: s)) eqn:Hm.
    + intros [= ->]. apply match_at_sound in Hm as [s' H].
      by exists [], (c :: s), s'.
    + intros (pre & suf & s' & -> & H)%IH. by exists (c :: pre), suf, s'.
Qed.

Lemma search_complete r pre suf s' m :
  matches r suf ∅ s' m → is_Some (search r (pre ++ suf)).
Proof.
  intros H. induction pre as [|c pre IH]; simpl.
  - apply match_at_complete in H as [m' Hm].
    destruct suf; simpl; by rewrite Hm.
  - by destruct (match_at r (c :: pre ++ suf)).
Qed.

(** The search returns the match at the first position that has one. *)
Lemma search_first r pre suf m :
  (∀ p1 p2, pre = p1 ++ p2 → p2 ≠ [] → match_at r (p2 ++ suf) = None) →
  match_at r suf = Some m →
  search r (pre ++ suf) = Some m.
Proof.
  intros Hpre Hm. induction pre as [|c pre IH]; simpl.
  - destruct suf; simpl; by rewrite Hm.
  - assert (match_at r (c :: pre ++ suf) = None) as ->
      by by apply (Hpre [] (c :: pre)).
    apply IH.
    intros p1 p2 -> Hne. by apply (Hpre (c :: p1) p2).
Qed.

Lemma search_none r s :
  (∀ p1 p2, s = p1 ++ p2 → match_at r p2 = None) →
  search r s = None.
Proof.
  intros H. induction s as [|c s IH]; simpl.
  - by rewrite (H [] []).
  - rewrite (H [] (c :: s)); [|done]. apply IH.
    intros p1 p2 ->. by apply (H (c :: p1) p2).
Qed.

End matcher_facts.

(** ** Runs of characters and [float] *)

Section run_facts.

Lemma span_app p a s :
  forallb p a = true → ends_run p s → span p (a ++ s) = (a, s).
Proof.
  intros Ha Hs. induction a as [|c a IH]; simpl in *.
  - destruct s as [|c s]; simpl in *; [done|]. by rewrite Hs.
  - apply andb_true_iff in Ha as [-> Ha]. by rewrite IH.
Qed.

Lemma span_all p a : forallb p a = true → span p a = (a, []).
Proof.
  intros Ha. rewrite <- (app_nil_r a) at 1. by apply span_app.
Qed.

Lemma span_spec p s :
  s = (span p s).1 ++ (span p s).2 ∧
  forallb p (span p s).1 = true ∧ ends_run p (span p s).2.
Proof.
  induction s as [|c s (IH1 & IH2 & IH3)]; simpl; [done|].
  destruct (span p s) as [a b]; simpl in *.
  destruct (p c) eqn:Hc; simpl; [|done].
  by rewrite Hc, IH2, <- IH1.
Qed.

(** A greedy run takes the longest run when the rest of the pattern
    accepts what follows it. *)
Lemma star_greedy {A} p s (k : list ascii → option A) m :
  k (span p s).2 = Some m → star p s k = Some m.
Proof.
  induction s as [|c s IH]; simpl; [done|].
  destruct (p c); [|done].
  destruct (span p s) as [a b]; simpl in *. intros H. by rewrite IH.
Qed.

(** A greedy run gives nothing back when the rest of the pattern cannot
    start with a character of the run. *)
Lemma star_skip {A} p s (k : list ascii → option A) :
  (∀ c s', p c = true → k (c :: s') = None) →
  star p s k = k (span p s).2.
Proof.
  intros Hk. induction s as [|c s IH]; simpl; [done|].
  destruct (p c) eqn:Hc; [|done].
  destruct (span p s) as [a b]; simpl in *. rewrite IH.
  destruct (k b) eqn:Hb; [done|]. by apply Hk.
Qed.

Lemma take_consumed (a s : list ascii) :
  take (length (a ++ s) - length s) (a ++ s) = a.
Proof.
  rewrite length_app.
  replace (length a + length s - length s) with (length a) by lia.
  by rewrite take_app_length.
Qed.

(** [float] reads every non-empty run of digits. *)
Lemma py_float_digits ds :
  ds ≠ [] → forallb is_digit ds = true →
  py_float ds = Ok (of_Z (digits_val ds)).
Proof.
  intros Hne Hds. unfold py_float. rewrite span_all by done.
  by destruct ds.
Qed.

End run_facts.

(** Inversion of a match of a pattern that is given in full. *)
Ltac inv_matches :=
  repeat match goal with
  | H : matches (Cat _ _) _ _ _ _ |- _ => inversion H; subst; clear H
  | H : matches (Grp _ _) _ _ _ _ |- _ => inversion H; subst; clear H
  | H : matches (Opt _) _ _ _ _ |- _ => inversion H; subst; clear H
  | H : matches (Chr _) _ _ _ _ |- _ => inversion H; subst; clear H
  | H : matches (Lit _) _ _ _ _ |- _ => inversion H; subst; clear H
  | H : matches (Star _) _ _ _ _ |- _ => inversion H; subst; clear H
  | H : matches (Plus _) _ _ _ _ |- _ => inversion H; subst; clear H
  | H : matches Eos _ _ _ _ |- _ => inversion H; subst; clear H
  end.

(** ** What the patterns capture *)

Section captures.

Lemma hours_re_group1 s m :
  search hours_re s = Some m → ∃ ds, group m 1 = Some ds ∧ digits ds.
Proof.
  intros (pre & suf & s' & -> & H)%search_sound. unfold hours_re in H.
  inv_matches; rewrite take_consumed; eexists; (split; [apply lookup_insert_eq|done]).
Qed.

Lemma months_re_group1 s m :
  search months_re s = Some m → ∃ ds, group m 1 = Some ds ∧ digits ds.
Proof.
  intros (pre & suf & s' & -> & H)%search_sound. unfold months_re in H.
  inv_matches; rewrite take_consumed; eexists; (split; [apply lookup_insert_eq|done]).
Qed.

Lemma months_range_re_groups s m :
  search months_range_re s = Some m →
  ∃ a b, group m 1 = Some a ∧ group m 2 = Some b ∧ digits a ∧ digits b.
Proof.
  intros (pre & suf & s' & -> & H)%search_sound. unfold months_range_re in H.
  inv_matches; rewrite !take_consumed; eexists _, _; unfold group;
    (split_and!; [by simplify_map_eq|by simplify_map_eq|done|done]).
Qed.

End captures.

(** ** What the parsers return, and which of them can raise *)

Section parser_results.

Lemma of_Z_inj a b : of_Z a = of_Z b → a = b.
Proof.
  unfold of_Z. intros H. apply (f_equal this) in H. simpl in H.
  apply Qred_eq_iff in H. by apply inject_Z_injective.
Qed.

(** [parse_hours_per_week] returns on every input: what it passes to
    [float] is a non-empty run of digits. *)
Lemma parse_hours_per_week_total text :
  ∃ v, parse_hours_per_week text = Ok v.
Proof.
  destruct text as [text|]; simpl; [|by eexists].
  unfold re_search. destruct (search hours_re (chars text)) as [m|] eqn:Hm.
  - apply hours_re_group1 in Hm as (ds & -> & Hne & Hds). simpl.
    rewrite py_float_digits by done. by eexists.
  - destruct (contains _ _); by eexists.
Qed.

(** [parse_duration_weeks] returns on every input. *)
Lemma parse_duration_weeks_total text :
  ∃ v, parse_duration_weeks text = Ok v.
Proof.
  destruct text as [text|]; simpl; [|by eexists].
  unfold re_search.
  destruct (search months_range_re (chars text)) as [m|] eqn:Hm.
  - apply months_range_re_groups in Hm
      as (a & b & -> & -> & [Ha1 Ha2] & [Hb1 Hb2]). simpl.
    rewrite !py_float_digits by done. by eexists.
  - destruct (search months_re (chars text)) as [m|] eqn:Hm'.
    + apply months_re_group1 in Hm' as (ds & -> & Hne & Hds). simpl.
      rewrite py_float_digits by done. by eexists.
    + destruct (contains _ _); by eexists.
Qed.

(** What [parse_hourly_rate] returns is a pair of missing values or a pair
    of numbers. *)
Lemma parse_hourly_rate_cases text mn mx :
  parse_hourly_rate text = Ok (mn, mx) →
  (mn = NaN ∧ mx = NaN) ∨ (∃ a b, mn = Num a ∧ mx = Num b).
Proof.
  destruct text as [text|]; simpl; [|intros [= <- <-]; by left].
  destruct (re_search hourly_rate_re text) as [m|];
    [|intros [= <- <-]; by left].
  destruct (py_float _) as [v1|]; simpl; [|done].
  destruct (group m 2) as [[|c g2]|]; simpl.
  - intros [= <- <-]. right. eauto.
  - destruct (py_float _) as [v2|]; simpl; [|done].
    intros [= <- <-]. right. eauto.
  - intros [= <- <-]. right. eauto.
Qed.

(** All four parsers answer the missing value on a missing text. *)
Lemma parsers_missing_input :
  parse_hourly_rate None = Ok (NaN, NaN) ∧
  parse_hours_per_week None = Ok NaN ∧
  parse_duration_weeks None = Ok NaN ∧
  parse_fixed_price None = Ok NaN.
Proof. done. Qed.

End parser_results.

(** C4. The claim that no parser ever raises does not hold of
    [parse_fixed_price] and [parse_hourly_rate]: an amount followed by the
    full stop of its sentence is captured with the stop, and [float] raises
    [ValueError] on it; the exception goes through [estimate_total_pay],
    whose documentation promises [np.nan] when the pay cannot be computed.
    ([parse_hours_per_week] and [parse_duration_weeks] do return on every
    input: [parse_hours_per_week_total], [parse_duration_weeks_total].) *)
Theorem parsers_raise_on_amount_with_stop :
  parse_fixed_price (Some "Budget is $750.00.") = Raise ValueError ∧
  parse_hourly_rate (Some "Hourly, up to $75.00.") = Raise ValueError ∧
  estimate_total_pay
    (Posting None None None (Some "Fixed-price") None
       (Some "Budget is $750.00.") None []) = Raise ValueError.
Proof. by vm_compute. Qed.

(** C2. On "Less than 30 hrs/week" the pattern for the number of hours
    matches "30 hrs/week" before the test for "less than" is reached:
    [parse_hours_per_week] answers 30, not the 25 that its documentation and
    the claim give for this text. The two other examples of the claim hold. *)
Theorem parse_hours_per_week_less_than_30 :
  parse_hours_per_week (Some "Less than 30 hrs/week") = Ok (Num (of_Z 30)) ∧
  parse_hours_per_week (Some "Less than 30 hrs/week") ≠ Ok (Num (of_Z 25)) ∧
  parse_hours_per_week (Some "30+ hrs/week") = Ok (Num (of_Z 30)) ∧
  parse_hours_per_week (Some "unspecified") = Ok NaN.
Proof.
  assert (H : parse_hours_per_week (Some "Less than 30 hrs/week")
              = Ok (Num (of_Z 30))) by (vm_compute; qc_eq).
  split; [done|]. split; [|split; [vm_compute; qc_eq|done]].
  rewrite H. intros E. assert (of_Z 30 = of_Z 25) as E' by congruence.
  by apply of_Z_inj in E'.
Qed.

(** C3. On "Less than 1 month" the pattern for a single number of months
    matches "1 month" before the test for "less than 1 month" is reached:
    [parse_duration_weeks] answers 4 weeks, not the 2 that its documentation
    and the claim give for this text. The two other examples of the claim
    hold. *)
Theorem parse_duration_weeks_less_than_1_month :
  parse_duration_weeks (Some "Less than 1 month") = Ok (Num (of_Z 4)) ∧
  parse_duration_weeks (Some "Less than 1 month") ≠ Ok (Num (of_Z 2)) ∧
  parse_duration_weeks (Some "1 to 3 months") = Ok (Num (of_Z 8)) ∧
  parse_duration_weeks (Some "2 months") = Ok (Num (of_Z 8)).
Proof.
  assert (H : parse_duration_weeks (Some "Less than 1 month")
              = Ok (Num (of_Z 4))) by (vm_compute; qc_eq).
  split; [done|]. split; [|split; vm_compute; qc_eq].
  rewrite H. intros E. assert (of_Z 4 = of_Z 2) as E' by congruence.
  by apply of_Z_inj in E'.
Qed.

(** C10. When [parse_hourly_rate] returns a pair, its two components are
    both missing or both present. *)
Theorem parse_hourly_rate_both_or_none text mn mx :
  parse_hourly_rate text = Ok (mn, mx) →
  (mn = NaN ∧ mx = NaN) ∨ (present mn ∧ present mx).
Proof.
  intros [H|(a & b & -> & ->)]%parse_hourly_rate_cases; [by left|by right].
Qed.

Lemma parse_hourly_rate_both_or_none_witness :
  parse_hourly_rate (Some "Hourly: $75.00 - $100.00")
    = Ok (Num (of_Z 75), Num (of_Z 100)) ∧
  (Num (of_Z 75) = NaN ∧ Num (of_Z 100) = NaN ∨
   present (Num (of_Z 75)) ∧ present (Num (of_Z 100))).
Proof.
  assert (H : parse_hourly_rate (Some "Hourly: $75.00 - $100.00")
              = Ok (Num (of_Z 75), Num (of_Z 100))) by (vm_compute; qc_eq).
  split; [exact H|].
  exact (parse_hourly_rate_both_or_none _ _ _ H).
Defined.

(** ** The skill canonicalizer *)

(** C8. Every canonical form of the synonym table is a fixed point of
    [clean_and_standardize_skill]: the function maps the value of each entry
    of [canonical_map] to itself. *)
Theorem clean_and_standardize_skill_fixed_point (key canonical : string) :
  canonical_map !! key = Some canonical →
  clean_and_standardize_skill (Some canonical) = Some canonical.
Proof.
  intros H. unfold canonical_map in H. apply elem_of_list_to_map_2 in H.
  repeat (apply elem_of_cons in H as [[= -> ->]|H]; [by vm_compute|]).
  by apply elem_of_nil in H.
Qed.

Lemma clean_and_standardize_skill_fixed_point_witness :
  clean_and_standardize_skill (Some "Machine Learning")
  = Some "Machine Learning".
Proof.
  apply (clean_and_standardize_skill_fixed_point "ml" "Machine Learning").
  by vm_compute.
Defined.

(** The canonicalizer is idempotent on the synonym table: cleaning twice a
    key of the table gives what cleaning it once gives. *)
Lemma clean_and_standardize_skill_idempotent (key canonical : string) :
  canonical_map !! key = Some canonical →
  clean_and_standardize_skill (clean_and_standardize_skill (Some key))
  = clean_and_standardize_skill (Some key).
Proof.
  intros H. unfold canonical_map in H. apply elem_of_list_to_map_2 in H.
  repeat (apply elem_of_cons in H as [[= -> ->]|H]; [by vm_compute|]).
  by apply elem_of_nil in H.
Qed.

(** ** The search-term canonicalizer *)

Section search_term.

Lemma length_assign_search_term df col :
  length col = length df → length (assign_search_term df col) = length df.
Proof. intros H. unfold assign_search_term. rewrite length_zip_with. lia. Qed.

Lemma column_assign_search_term df col :
  length col = length df →
  j_search_term <$> assign_search_term df col = col.
Proof.
  unfold assign_search_term. revert col.
  induction df as [|r df IH]; intros [|v col]; simpl; try done.
  intros [= H]. by rewrite IH.
Qed.

Lemma length_ffill_from last col :
  length (ffill_from last col) = length col.
Proof.
  revert last. induction col as [|v col IH]; intros last; simpl; [done|].
  by rewrite IH.
Qed.

Lemma assign_search_term_of_column df
    (f : list (option string) → list (option string)) :
  (∀ c, length (f c) = length c) →
  j_search_term <$> assign_search_term df (f (j_search_term <$> df))
  = f (j_search_term <$> df) ∧
  length (assign_search_term df (f (j_search_term <$> df))) = length df.
Proof.
  intros Hf.
  assert (length (f (j_search_term <$> df)) = length df)
    by by rewrite Hf, length_fmap.
  split; [by apply column_assign_search_term|by apply length_assign_search_term].
Qed.

(** The column that [standardize_search_term_column] leaves. *)
Lemma standardize_search_term_column_column df :
  j_search_term <$> standardize_search_term_column df
  = series_map search_term_map (str_lower (ffill (j_search_term <$> df))).
Proof.
  unfold standardize_search_term_column.
  destruct (assign_search_term_of_column df ffill) as [C1 L1];
    [intros c; apply length_ffill_from|].
  destruct (assign_search_term_of_column
              (assign_search_term df (ffill (j_search_term <$> df))) str_lower)
    as [C2 L2]; [intros c; apply length_fmap|].
  destruct (assign_search_term_of_column
              (assign_search_term
                 (assign_search_term df (ffill (j_search_term <$> df)))
                 (str_lower (j_search_term <$>
                    assign_search_term df (ffill (j_search_term <$> df)))))
              (series_map search_term_map))
    as [C3 L3]; [intros c; apply length_fmap|].
  by rewrite C3, C2, C1.
Qed.

Lemma length_standardize_search_term_column df :
  length (standardize_search_term_column df) = length df.
Proof.
  rewrite <- (length_fmap j_search_term), standardize_search_term_column_column.
  unfold series_map, str_lower, ffill.
  by rewrite !length_fmap, length_ffill_from, length_fmap.
Qed.

(** While only missing cells are met, the running value is what fills them. *)
Lemma ffill_from_missing last col i :
  i < length col → (∀ k, k ≤ i → col !! k = Some None) →
  ffill_from last col !! i = Some last.
Proof.
  revert last i. induction col as [|x col IH]; intros last i Hi Hk;
    [simpl in Hi; lia|].
  pose proof (Hk 0 ltac:(lia)) as H0. simpl in H0. simplify_eq.
  destruct i as [|i]; simpl; [done|].
  apply IH; [simpl in Hi; lia|].
  intros k Hki. apply (Hk (S k)). lia.
Qed.

(** A cell below a present value, with only missing cells in between, is
    filled with that value. *)
Lemma ffill_from_filled last col i j v :
  j ≤ i → i < length col → col !! j = Some (Some v) →
  (∀ k, j < k ≤ i → col !! k = Some None) →
  ffill_from last col !! i = Some (Some v).
Proof.
  revert last i j. induction col as [|x col IH]; intros last i j Hji Hi Hj Hk;
    [done|].
  simpl in Hi. destruct j as [|j]; simpl in Hj.
  - simplify_eq. destruct i as [|i]; simpl; [done|].
    apply ffill_from_missing; [lia|].
    intros k Hki. apply (Hk (S k)). lia.
  - destruct i as [|i]; [lia|]. simpl.
    apply (IH _ i j); [lia|lia|done|].
    intros k Hki. apply (Hk (S k)). lia.
Qed.

End search_term.

(** C6. [standardize_search_term_column] keeps the rows, and the cell of row
    [i] of the [search_term] column becomes: when a present value [v] stands
    in a row [j] at or above [i] with only missing cells between [j] and [i]
    (forward fill), the entry of [search_term_map] for [v] in lower case,
    which is the missing value when the table has no such key; when every
    cell down to row [i] is missing, the missing value. *)
Theorem standardize_search_term_column_spec (df : list job) :
  let col := j_search_term <$> df in
  let out := j_search_term <$> standardize_search_term_column df in
  length (standardize_search_term_column df) = length df ∧
  (∀ i j v,
     j ≤ i → i < length df → col !! j = Some (Some v) →
     (∀ k, j < k ≤ i → col !! k = Some None) →
     out !! i = Some (search_term_map !! lower v)) ∧
  (∀ i,
     i < length df → (∀ k, k ≤ i → col !! k = Some None) →
     out !! i = Some None).
Proof.
  intros col out. split; [apply length_standardize_search_term_column|].
  unfold out. rewrite standardize_search_term_column_column. fold col.
  assert (Hlen : length col = length df) by apply length_fmap.
  unfold series_map, str_lower, ffill. split.
  - intros i j v Hji Hi Hj Hk. rewrite !list_lookup_fmap.
    by rewrite (ffill_from_filled None col i j v) by (done || lia).
  - intros i Hi Hk. rewrite !list_lookup_fmap.
    by rewrite (ffill_from_missing None col i) by (done || lia).
Qed.

Lemma standardize_search_term_column_spec_witness :
  let df := job_of_search_term <$>
              [None; Some "AI"; None; None; Some "Data"; Some "Deep Learning"] in
  let out := j_search_term <$> standardize_search_term_column df in
  out !! 3 = Some (Some "AI") ∧ out !! 0 = Some None ∧ out !! 5 = Some None.
Proof.
  intros df out.
  destruct (standardize_search_term_column_spec df) as (_ & Hfill & Hnone).
  split; [|split].
  - apply (Hfill 3 1 "AI"); [lia|simpl; lia|done|].
    intros k Hk. assert (k = 2 ∨ k = 3) as [-> | ->] by lia; done.
  - apply (Hnone 0); [simpl; lia|].
    intros k Hk. by assert (k = 0) as -> by lia.
  - apply (Hfill 5 5 "Deep Learning"); [lia|simpl; lia|done|].
    intros k Hk. lia.
Defined.

(** ** The estimate of the total pay *)

Section estimate.

Lemma Qcdiv_1_r (a : Qc) : (a / of_nat 1)%Qc = a.
Proof.
  assert (of_nat 1 = 1%Qc) as -> by (apply Qc_is_canon; reflexivity).
  unfold Qcdiv.
  assert ((/ 1)%Qc = 1%Qc) as -> by (apply Qc_is_canon; reflexivity).
  apply Qcmult_1_r.
Qed.

Lemma nanmean_pair mn mx : nanmean [mn; mx] = avg_rate mn mx.
Proof.
  destruct mn as [|a], mx as [|b]; unfold nanmean; simpl; try done.
  - by rewrite Qcplus_0_r, Qcdiv_1_r.
  - by rewrite Qcplus_0_r, Qcdiv_1_r.
  - rewrite Qcplus_0_r. do 2 f_equal.
Qed.

Lemma estimate_total_pay_hourly_ref row t :
  hourly_or_fixed row = Some t → occurs_ci "hourly" t →
  estimate_total_pay row = estimate_hourly_ref t (duration_or_budget row).
Proof.
  intros Ht Hh. apply contains_lower_spec in Hh.
  unfold estimate_total_pay, estimate_hourly_ref. rewrite Ht, Hh.
  destruct (parse_hourly_rate (Some t)) as [[mn mx]|]; simpl; [|done].
  destruct (parse_hours_per_week _) as [hours|]; simpl; [|done].
  destruct (parse_duration_weeks _) as [weeks|]; simpl; [|done].
  rewrite nanmean_pair.
  by destruct (avg_rate mn mx), hours, weeks.
Qed.

(** A posting that is not hourly: the estimate of a fixed-price posting is
    the parsed fixed price, and any other posting has none. *)
Lemma estimate_total_pay_not_hourly row :
  (∀ t, hourly_or_fixed row = Some t → ¬ occurs_ci "hourly" t →
     occurs_ci "fixed" t →
     estimate_total_pay row = parse_fixed_price (duration_or_budget row)) ∧
  (∀ t, hourly_or_fixed row = Some t → ¬ occurs_ci "hourly" t →
     ¬ occurs_ci "fixed" t → estimate_total_pay row = Ok NaN) ∧
  (hourly_or_fixed row = None → estimate_total_pay row = Ok NaN).
Proof.
  unfold estimate_total_pay. split; [|split].
  - intros t -> Hh%contains_lower_false Hf%contains_lower_spec.
    by rewrite Hh, Hf.
  - intros t -> Hh%contains_lower_false Hf%contains_lower_false.
    by rewrite Hh, Hf.
  - by intros ->.
Qed.

End estimate.

(** C1. For a posting whose pay-type text has "hourly" in it whatever the
    case, [estimate_total_pay] is the reference definition: the mean of the
    parsed rates that are present (the whole estimate is missing when none
    is), times the parsed hours per week or 30, times the parsed weeks or 8.
    In particular rates of 20 and 40 with no parseable hours or weeks give
    7200. *)
Theorem estimate_total_pay_hourly (row : posting) (t : string) :
  hourly_or_fixed row = Some t → occurs_ci "hourly" t →
  estimate_total_pay row = estimate_hourly_ref t (duration_or_budget row) ∧
  (parse_hourly_rate (Some t) = Ok (Num (of_Z 20), Num (of_Z 40)) →
   parse_hours_per_week (duration_or_budget row) = Ok NaN →
   parse_duration_weeks (duration_or_budget row) = Ok NaN →
   estimate_total_pay row = Ok (Num (of_Z 7200))).
Proof.
  intros Ht Hh. split; [by apply estimate_total_pay_hourly_ref|].
  intros Hr Hhours Hweeks.
  rewrite (estimate_total_pay_hourly_ref row t) by done.
  unfold estimate_hourly_ref. rewrite Hr, Hhours, Hweeks. simpl. qc_eq.
Qed.

Lemma estimate_total_pay_hourly_witness :
  let row := Posting None None None (Some "Hourly: $20.00 - $40.00") None
               (Some "unspecified") None [] in
  estimate_total_pay row = Ok (Num (of_Z 7200)).
Proof.
  intros row.
  destruct (estimate_total_pay_hourly row "Hourly: $20.00 - $40.00")
    as [_ H]; [done|by exists "", "Hourly", ": $20.00 - $40.00"|].
  apply H; [vm_compute; qc_eq|done|done].
Defined.

(** ** The pay columns of the final table *)

Section pipeline.

Lemma mapM_Ok {A B} (f : A → result B) l k :
  mapM f l = Ok k → Forall2 (λ x y, f x = Ok y) l k.
Proof.
  revert k. induction l as [|x l IH]; intros k; simpl.
  - intros [= <-]. constructor.
  - destruct (f x) as [y|] eqn:Hy; simpl; [|done].
    destruct (mapM f l) as [k'|]; simpl; [|done].
    intros [= <-]. constructor; [done|]. by apply IH.
Qed.

Lemma pay_columns_assign_search_term df col r :
  r ∈ assign_search_term df col →
  ∃ r', r' ∈ df ∧ pay_columns r = pay_columns r'.
Proof.
  unfold assign_search_term.
  intros (r' & v & -> & Hr' & _)%elem_of_zip_with. by exists r'.
Qed.

Lemma pay_columns_standardize_search_term_column df r :
  r ∈ standardize_search_term_column df →
  ∃ r', r' ∈ df ∧ pay_columns r = pay_columns r'.
Proof.
  unfold standardize_search_term_column.
  intros (r3 & H3 & E3)%pay_columns_assign_search_term.
  apply pay_columns_assign_search_term in H3 as (r2 & H2 & E2).
  apply pay_columns_assign_search_term in H2 as (r1 & H1 & E1).
  exists r1. split; [done|congruence].
Qed.

(** Every record of the final table comes from a row on which
    [add_columns] returned, with the same pay columns and an estimate that
    is present. *)
Lemma data_prep_origin df out r :
  data_prep df = Ok out → r ∈ out →
  ∃ p r0, add_columns p = Ok r0 ∧ pay_columns r = pay_columns r0 ∧
          isnan (estimated_total_pay r0) = false.
Proof.
  unfold data_prep.
  destruct (add_new_columns (drop_duplicates df)) as [js|] eqn:Hjs;
    simpl; [|done].
  assert (mapM add_columns (drop_duplicates df) = Ok js) as Hjs'
    by (unfold add_new_columns in Hjs; by destruct (drop_duplicates df)).
  clear Hjs. rename Hjs' into Hjs.
  intros [= <-] Hr. apply list_elem_of_fmap in Hr as (r1 & -> & H1).
  apply pay_columns_standardize_search_term_column in H1 as (r2 & H2 & E2).
  apply list_elem_of_fmap in H2 as (r0 & -> & H0).
  apply list_elem_of_filter in H0 as [Hnan H0].
  apply mapM_Ok in Hjs.
  apply list_elem_of_lookup in H0 as [i Hi].
  destruct (Forall2_lookup_r _ _ _ _ _ Hjs Hi) as (p & _ & Hp).
  exists p, r0. split; [done|]. split; [|done].
  transitivity (pay_columns r1); [done|]. by rewrite E2.
Qed.

Lemma add_columns_Ok p r :
  add_columns p = Ok r →
  pay_type r = get_pay_type (hourly_or_fixed p) ∧
  parse_hourly_rate (hourly_or_fixed p)
    = Ok (hourly_rate_min r, hourly_rate_max r) ∧
  parse_fixed_price (duration_or_budget p) = Ok (fixed_price r) ∧
  estimate_total_pay p = Ok (estimated_total_pay r).
Proof.
  unfold add_columns.
  destruct (parse_hourly_rate _) as [[mn mx]|]; simpl; [|done].
  destruct (parse_hours_per_week _) as [hours|]; simpl; [|done].
  destruct (parse_duration_weeks _) as [weeks|]; simpl; [|done].
  destruct (parse_fixed_price _) as [price|]; simpl; [|done].
  destruct (estimate_total_pay p) as [total|]; simpl; [|done].
  by intros [= <-].
Qed.

Lemma fmul_present x y : fmul x y ≠ NaN → x ≠ NaN ∧ y ≠ NaN.
Proof. by destruct x, y. Qed.

Lemma isnan_false x : isnan x = false ↔ present x.
Proof. by destruct x. Qed.

(** The pay columns of a row on which [add_columns] returned an estimate
    that is present. *)
Lemma add_columns_pay_columns p r :
  add_columns p = Ok r → present (estimated_total_pay r) →
  (pay_type r = Some "Hourly" ∨ pay_type r = Some "Fixed") ∧
  (pay_type r = Some "Hourly" →
     present (hourly_rate_min r) ∧ present (hourly_rate_max r)) ∧
  (pay_type r = Some "Fixed" → present (fixed_price r)).
Proof.
  intros (Hpt & Hrate & Hprice & Htotal)%add_columns_Ok Hpresent.
  unfold get_pay_type in Hpt. unfold estimate_total_pay in Htotal.
  destruct (hourly_or_fixed p) as [t|];
    [|injection Htotal as Htotal; by rewrite <- Htotal in Hpresent].
  destruct (contains "hourly" (lower t)).
  - split; [by left|]. split; [|by rewrite Hpt].
    intros _. rewrite Hrate in Htotal. simpl in Htotal.
    destruct (parse_hours_per_week _) as [hours|]; simpl in Htotal; [|done].
    destruct (parse_duration_weeks _) as [weeks|]; simpl in Htotal; [|done].
    injection Htotal as Htotal. rewrite <- Htotal in Hpresent.
    apply fmul_present in Hpresent as [[Havg _]%fmul_present _].
    apply parse_hourly_rate_cases in Hrate
      as [[Hmn Hmx]|(a & b & Hmn & Hmx)]; rewrite Hmn, Hmx in *; done.
  - destruct (contains "fixed" (lower t));
      [|injection Htotal as Htotal; by rewrite <- Htotal in Hpresent].
    split; [by right|]. split; [by rewrite Hpt|].
    intros _. rewrite Hprice in Htotal. injection Htotal as Htotal.
    by rewrite Htotal.
Qed.

End pipeline.

(** C7, as the claim states it, fails: each pay column is parsed from its
    text whatever the pay type. An hourly posting whose duration text quotes
    an amount is retained with a fixed price, and a fixed-price posting
    whose pay-type text quotes an amount is retained with hourly rates. *)
Lemma present_only_for_pay_type_counterexample :
  ∃ out r1 r2,
    data_prep [hourly_posting_with_amount; fixed_posting_with_amount] = Ok out ∧
    r1 ∈ out ∧ r2 ∈ out ∧
    ¬ present_only_for_pay_type r1 ∧ ¬ present_only_for_pay_type r2.
Proof.
  eexists _, _, _. split; [by vm_compute|].
  split; [apply list_elem_of_here|].
  split; [apply list_elem_of_further, list_elem_of_here|].
  split.
  - intros (_ & _ & H). by specialize (H ltac:(done)).
  - intros (H & _ & _). by specialize (H ltac:(done)).
Qed.

(** C7, amended. In every record of the final table the pay type is
    ['Hourly'] or ['Fixed']; in an hourly record both hourly rates are
    present, and in a fixed-price record the fixed price is present. *)
Theorem data_prep_pay_columns (df : list posting) (out : list job) (r : job) :
  data_prep df = Ok out → r ∈ out →
  (pay_type r = Some "Hourly" ∨ pay_type r = Some "Fixed") ∧
  (pay_type r = Some "Hourly" →
     present (hourly_rate_min r) ∧ present (hourly_rate_max r)) ∧
  (pay_type r = Some "Fixed" → present (fixed_price r)).
Proof.
  intros Hout Hr.
  destruct (data_prep_origin df out r Hout Hr) as (p & r0 & Hp & E & Hnan).
  apply isnan_false in Hnan.
  destruct (add_columns_pay_columns p r0 Hp Hnan) as (H1 & H2 & H3).
  unfold pay_columns in E. injection E as -> -> -> -> _. done.
Qed.

Lemma data_prep_pay_columns_witness :
  ∃ out r,
    data_prep [hourly_posting_with_amount; fixed_posting_with_amount] = Ok out ∧
    r ∈ out ∧ pay_type r = Some "Fixed" ∧ present (fixed_price r).
Proof.
  eexists _, _. split; [by vm_compute|].
  split; [apply list_elem_of_further, list_elem_of_here|].
  split; [done|].
  eapply (data_prep_pay_columns
            [hourly_posting_with_amount; fixed_posting_with_amount]);
    [by vm_compute|apply list_elem_of_further, list_elem_of_here|done].
Defined.

(** ** Greedy repetitions

    The matcher one step at a time, and the two cases where a greedy run
    is known without trying every length. *)

Section greedy.

Lemma exec_Cat r1 r2 s g k :
  exec (r1 ⋅ r2) s g k = exec r1 s g (λ s' g', exec r2 s' g' k).
Proof. done. Qed.

Lemma exec_Grp n r s g k :
  exec (Grp n r) s g k
  = exec r s g (λ s' g', k s' (<[n := take (length s - length s') s]> g')).
Proof. done. Qed.

Lemma exec_Opt r s g k :
  exec (Opt r) s g k
  = match exec r s g k with Some m => Some m | None => k s g end.
Proof. done. Qed.

Lemma exec_Chr c s g k : exec (Chr c) (c :: s) g k = k s g.
Proof. simpl. by rewrite decide_True. Qed.

Lemma exec_Chr_ne c c' s g k : c ≠ c' → exec (Chr c) (c' :: s) g k = None.
Proof. intros H. simpl. by rewrite decide_False. Qed.

Lemma exec_Lit l s g k : exec (Lit l) (chars l ++ s) g k = k s g.
Proof.
  simpl. assert (strip_prefix (chars l) (chars l ++ s) = Some s) as ->
    by by apply strip_prefix_spec.
  done.
Qed.

Lemma exec_Plus_greedy p a rest g k m :
  a ≠ [] → forallb p a = true → ends_run p rest →
  k rest g = Some m → exec (Plus p) (a ++ rest) g k = Some m.
Proof.
  intros Hne Ha Hrest Hk. destruct a as [|c a]; [done|]. simpl in *.
  apply andb_true_iff in Ha as [-> Ha].
  apply star_greedy. by rewrite span_app.
Qed.

Lemma exec_Plus_skip p a rest g k :
  a ≠ [] → forallb p a = true → ends_run p rest →
  (∀ c s', p c = true → k (c :: s') g = None) →
  exec (Plus p) (a ++ rest) g k = k rest g.
Proof.
  intros Hne Ha Hrest Hk. destruct a as [|c a]; [done|]. simpl in *.
  apply andb_true_iff in Ha as [-> Ha].
  rewrite star_skip by done. by rewrite span_app.
Qed.

Lemma exec_Star_skip p a rest g k :
  forallb p a = true → ends_run p rest →
  (∀ c s', p c = true → k (c :: s') g = None) →
  exec (Star p) (a ++ rest) g k = k rest g.
Proof.
  intros Ha Hrest Hk. simpl.
  rewrite star_skip by done. by rewrite span_app.
Qed.

Lemma search_first_index r pre suf m :
  (∀ i, i < length pre → match_at r (drop i (pre ++ suf)) = None) →
  match_at r suf = Some m →
  search r (pre ++ suf) = Some m.
Proof.
  intros Hpre. apply search_first. intros p1 p2 -> Hne.
  specialize (Hpre (length p1)).
  rewrite <- (assoc (++)), drop_app_length in Hpre. apply Hpre.
  rewrite length_app. destruct p2; [done|]. simpl. lia.
Qed.

Lemma search_none_index r s :
  (∀ i, match_at r (drop i s) = None) → search r s = None.
Proof.
  intros H. apply search_none. intros p1 p2 ->.
  specialize (H (length p1)). by rewrite drop_app_length in H.
Qed.

Lemma rate_no_match s :
  dollar_amount_at s = false → match_at hourly_rate_re s = None.
Proof.
  unfold match_at, hourly_rate_re. destruct s as [|c s]; simpl; [done|].
  case_decide; [subst|done]. simpl.
  destruct s as [|c' s]; simpl; [done|]. by intros ->.
Qed.

Lemma rate_second_match g ws1 ws2 a2 rest2 :
  blanks ws1 → blanks ws2 → amount a2 → ends_run is_amount_char rest2 →
  exec (Star is_space ⋅ Chr "-" ⋅ Star is_space ⋅ Chr "$" ⋅
        Grp 2 (Plus is_amount_char))
    (ws1 ++ "-"%char :: ws2 ++ "$"%char :: a2 ++ rest2) g (λ _ g', Some g')
  = Some (<[2 := a2]> g).
Proof.
  intros Hws1 Hws2 [Hne2 Ha2] Hrest2.
  rewrite exec_Cat, exec_Star_skip; [|done|done|].
  - rewrite exec_Cat, exec_Chr, exec_Cat, exec_Star_skip; [|done|done|].
    + rewrite exec_Cat, exec_Chr, exec_Grp.
      apply exec_Plus_greedy; [done..|]. by rewrite take_consumed.
    + intros c s' Hc. rewrite exec_Cat, exec_Chr_ne; [done|].
      by intros <-.
  - intros c s' Hc. rewrite exec_Cat, exec_Chr_ne; [done|]. by intros <-.
Qed.

Lemma rate_second_none g rest :
  (∀ a2 rest2, ¬ second_amount rest a2 rest2) →
  exec (Star is_space ⋅ Chr "-" ⋅ Star is_space ⋅ Chr "$" ⋅
        Grp 2 (Plus is_amount_char)) rest g (λ _ g', Some g')
  = None.
Proof.
  intros Hno. destruct (exec _ _ _ _) as [m|] eqn:E; [|done].
  apply exec_sound in E as (s' & g' & H & _). inv_matches.
  destruct (Hno a1 s'). by eexists _, _.
Qed.

Lemma rate_match_at a1 rest :
  amount a1 → ends_run is_amount_char rest →
  match_at hourly_rate_re ("$"%char :: a1 ++ rest)
  = match exec (Star is_space ⋅ Chr "-" ⋅ Star is_space ⋅ Chr "$" ⋅
                Grp 2 (Plus is_amount_char)) rest (<[1 := a1]> ∅)
            (λ _ g', Some g') with
    | Some m => Some m
    | None => Some (<[1 := a1]> ∅)
    end.
Proof.
  intros [Hne1 Ha1] Hrest. unfold match_at, hourly_rate_re.
  rewrite exec_Cat, exec_Chr, exec_Cat, exec_Grp.
  destruct (exec (Star is_space ⋅ _) _ _ _) as [m|] eqn:E.
  - apply exec_Plus_greedy; [done..|]. by rewrite take_consumed, exec_Opt, E.
  - apply exec_Plus_greedy; [done..|]. by rewrite take_consumed, exec_Opt, E.
Qed.

Lemma fixed_price_no_match s :
  dollar_amount_at s = false → match_at fixed_price_re s = None.
Proof.
  unfold match_at, fixed_price_re. destruct s as [|c s]; simpl; [done|].
  case_decide; [subst|done]. simpl.
  destruct s as [|c' s]; simpl; [done|]. by intros ->.
Qed.

Lemma fixed_price_match_at a rest :
  amount a → ends_run is_amount_char rest →
  match_at fixed_price_re ("$"%char :: a ++ rest) = Some (<[1 := a]> ∅).
Proof.
  intros [Hne Ha] Hrest. unfold match_at, fixed_price_re.
  rewrite exec_Cat, exec_Chr, exec_Grp.
  apply exec_Plus_greedy; [done..|]. by rewrite take_consumed.
Qed.

End greedy.

(** ** The fixed price *)

(** [parse_fixed_price] answers the missing value on a text where no dollar
    sign is followed by an amount; otherwise it passes to [float] the whole
    run [a] of digits, commas and dots after the first such dollar sign,
    without its commas. *)
Lemma parse_fixed_price_rule (text : string) :
  ((∀ i, dollar_amount_at (drop i (chars text)) = false) →
     parse_fixed_price (Some text) = Ok NaN) ∧
  (∀ pre a rest,
     chars text = pre ++ "$"%char :: a ++ rest →
     (∀ i, i < length pre → dollar_amount_at (drop i (chars text)) = false) →
     amount a → ends_run is_amount_char rest →
     parse_fixed_price (Some text) = Num <$> py_float (remove_char "," a)).
Proof.
  unfold parse_fixed_price, re_search. split.
  - intros Hno. rewrite search_none_index; [done|].
    intros i. by apply fixed_price_no_match.
  - intros pre a rest Htext Hfirst Ha Hrest.
    rewrite Htext, (search_first_index _ _ _ (<[1 := a]> ∅)).
    + unfold group. by rewrite lookup_insert_eq.
    + intros i Hi. rewrite <- Htext. by apply fixed_price_no_match, Hfirst.
    + by apply fixed_price_match_at.
Qed.

(** ** The hourly rate *)

(** What [parse_hourly_rate] returns where [float] accepts the amounts
    located: two missing values on a missing text and
    on a text where no dollar sign is followed by an amount. Otherwise take
    the first dollar sign that is followed by an amount, and the whole run
    [a1] of digits, commas and dots after it: when what follows is no dash
    and second amount, the result is the number [a1] reads as without its
    commas, twice; when a dash and a second amount [a2] follow, the result
    is the pair of the numbers [a1] and [a2] read as without their commas.
    The two examples of the specification hold. *)
Lemma parse_hourly_rate_spec :
  parse_hourly_rate None = Ok (NaN, NaN) ∧
  (∀ text : string,
     (∀ i, dollar_amount_at (drop i (chars text)) = false) →
     parse_hourly_rate (Some text) = Ok (NaN, NaN)) ∧
  (∀ (text : string) (pre a1 rest : list ascii) (v1 : Qc),
     chars text = pre ++ "$"%char :: a1 ++ rest →
     (∀ i, i < length pre → dollar_amount_at (drop i (chars text)) = false) →
     amount a1 → ends_run is_amount_char rest →
     py_float (remove_char "," a1) = Ok v1 →
     ((∀ a2 rest2, ¬ second_amount rest a2 rest2) →
        parse_hourly_rate (Some text) = Ok (Num v1, Num v1)) ∧
     (∀ a2 rest2 v2,
        second_amount rest a2 rest2 → ends_run is_amount_char rest2 →
        py_float (remove_char "," a2) = Ok v2 →
        parse_hourly_rate (Some text) = Ok (Num v1, Num v2))) ∧
  parse_hourly_rate (Some "Hourly: $75.00 - $100.00")
    = Ok (Num (of_Z 75), Num (of_Z 100)) ∧
  parse_hourly_rate (Some "Hourly: $75.00")
    = Ok (Num (of_Z 75), Num (of_Z 75)).
Proof.
  split; [done|]. split; [|split; [|split; vm_compute; qc_eq]].
  - intros text Hno. unfold parse_hourly_rate, re_search.
    rewrite search_none_index; [done|].
    intros i. by apply rate_no_match.
  - intros text pre a1 rest v1 Htext Hfirst Ha1 Hrest Hv1.
    assert (Hsearch : ∀ m,
      match_at hourly_rate_re ("$"%char :: a1 ++ rest) = Some m →
      re_search hourly_rate_re text = Some m).
    { intros m Hm. unfold re_search. rewrite Htext.
      apply search_first_index; [|done].
      intros i Hi. rewrite <- Htext. apply rate_no_match. by apply Hfirst. }
    split.
    + intros Hno. unfold parse_hourly_rate.
      rewrite (Hsearch (<[1 := a1]> ∅)).
      * unfold group. rewrite lookup_insert_eq. simpl. rewrite Hv1. simpl.
        by rewrite lookup_insert_ne, lookup_empty by done.
      * rewrite rate_match_at by done. by rewrite rate_second_none.
    + intros a2 rest2 v2 (ws1 & ws2 & -> & Hws1 & Hws2 & Ha2) Hrest2 Hv2.
      unfold parse_hourly_rate.
      rewrite (Hsearch (<[2 := a2]> (<[1 := a1]> ∅))).
      * unfold group. rewrite (lookup_insert_ne _ 2 1) by done.
        rewrite !lookup_insert_eq. simpl. rewrite Hv1. simpl.
        destruct a2 as [|c a2]; [by destruct Ha2|]. by rewrite Hv2.
      * rewrite rate_match_at by done. by rewrite rate_second_match.
Qed.

Lemma parse_hourly_rate_spec_witness :
  parse_hourly_rate (Some "no rate") = Ok (NaN, NaN) ∧
  parse_hourly_rate (Some "From $1,500") = Ok (Num (of_Z 1500), Num (of_Z 1500)) ∧
  parse_hourly_rate (Some "From $1,500.50  -$2,000 a month")
    = Ok (Num (of_Z 3001 / of_Z 2)%Qc, Num (of_Z 2000)).
Proof.
  destruct parse_hourly_rate_spec as (_ & Hnone & Hsome & _).
  split; [|split].
  - apply Hnone. intros i. do 8 (destruct i as [|i]; [done|]). done.
  - apply (Hsome "From $1,500" (chars "From ") (chars "1,500") []).
    + done.
    + intros i Hi. do 5 (destruct i as [|i]; [done|]). simpl in Hi. lia.
    + done.
    + done.
    + vm_compute. qc_eq.
    + intros a2 rest2 (ws1 & ws2 & H & _). by destruct ws1.
  - apply (Hsome "From $1,500.50  -$2,000 a month"
             (chars "From ") (chars "1,500.50") (chars "  -$2,000 a month")
             (of_Z 3001 / of_Z 2)%Qc)
      with (a2 := chars "2,000") (rest2 := chars " a month").
    + done.
    + intros i Hi. do 5 (destruct i as [|i]; [done|]). simpl in Hi. lia.
    + done.
    + done.
    + vm_compute. qc_eq.
    + by exists (chars "  "), [].
    + done.
    + vm_compute. qc_eq.
Defined.

(** C5. The claim that [parse_hourly_rate] returns a pair for every text
    does not hold of the code: the amount located is the whole run of
    digits, commas and dots, and [float] raises [ValueError] on a run that
    is no number, such as the second amount of a range followed by the full
    stop of its sentence, or a dollar sign followed by a full stop alone.
    The documentation of the function promises [(np.nan, np.nan)] where no
    rate is found. The two examples of the claim hold. *)
Theorem parse_hourly_rate_raises_on_located_amount :
  parse_hourly_rate (Some "Hourly: $75.00 - $100.00.") = Raise ValueError ∧
  parse_hourly_rate (Some "Hourly, paid in US$.") = Raise ValueError ∧
  parse_hourly_rate (Some "Hourly: $75.00 - $100.00")
    = Ok (Num (of_Z 75), Num (of_Z 100)) ∧
  parse_hourly_rate (Some "Hourly: $75.00")
    = Ok (Num (of_Z 75), Num (of_Z 75)).
Proof. split; [|split; [|split]]; vm_compute; try done; qc_eq. Qed.

(** ** The general rules of the two duration parsers *)

Section duration_rules.

Lemma run_unique p a s a' s' :
  forallb p a = true → ends_run p s →
  forallb p a' = true → ends_run p s' →
  a ++ s = a' ++ s' → a = a' ∧ s = s'.
Proof.
  intros Ha Hs Ha' Hs' H.
  pose proof (span_app p a s Ha Hs) as E.
  rewrite H, (span_app p a' s' Ha' Hs') in E. by simplify_eq.
Qed.

Lemma is_space_not_digit c : is_space c = true → is_digit c = false.
Proof.
  unfold is_space, is_digit.
  rewrite orb_true_iff, !bool_decide_eq_true, bool_decide_eq_false. lia.
Qed.

Lemma blanks_ends_run ws rest :
  blanks ws → ends_run is_digit rest → ends_run is_digit (ws ++ rest).
Proof.
  unfold blanks. destruct ws as [|c ws]; simpl; [done|].
  intros [Hc _]%andb_true_iff _. by apply is_space_not_digit.
Qed.

Lemma digits_ends_run ds rest : digits ds → ends_run is_space (ds ++ rest).
Proof.
  intros [Hne Hds]. destruct ds as [|c ds]; [done|]. simpl in *.
  apply andb_true_iff in Hds as [Hc _].
  destruct (is_space c) eqn:Hs; [|done].
  apply is_space_not_digit in Hs. congruence.
Qed.

Lemma hours_unit_ends_run u : hours_unit u → ends_run is_digit u.
Proof.
  intros (plus & ws & s & rest & -> & [->| ->] & Hws & _); [|done].
  by apply (blanks_ends_run ws).
Qed.

Lemma months_unit_ends_run u : months_unit u → ends_run is_digit u.
Proof. intros (ws & rest & -> & Hws). by apply blanks_ends_run. Qed.

Lemma range_tail_ends_run u b : range_tail u b → ends_run is_digit u.
Proof.
  intros (ws1 & ws2 & u' & -> & Hws1 & _). by apply blanks_ends_run.
Qed.

(** The upper end of a range is determined by the text. *)
Lemma range_tail_unique u b b' :
  range_tail u b → range_tail u b' → b = b'.
Proof.
  intros (ws1 & ws2 & u1 & -> & Hws1 & Hws2 & Hb & Hu1)
         (ws1' & ws2' & u1' & E & Hws1' & Hws2' & Hb' & Hu1').
  apply (run_unique is_space) in E as [_ E]; [|done..].
  injection E as E.
  apply (run_unique is_space) in E as [_ E];
    [|done|by apply digits_ends_run|done|by apply digits_ends_run].
  destruct Hb as [_ Hb], Hb' as [_ Hb'].
  by apply (run_unique is_digit) in E as [E _];
    [|done|by apply months_unit_ends_run|done|by apply months_unit_ends_run].
Qed.

Lemma hours_matches s s' m :
  matches hours_re s ∅ s' m →
  ∃ ds u, s = ds ++ u ∧ digits ds ∧ hours_unit u ∧ m = <[1 := ds]> ∅.
Proof.
  unfold hours_re. intros H. inv_matches; rewrite take_consumed;
    eexists _, _; (split; [done|]); (split; [done|]); (split; [|done]).
  all: first
    [ eexists (chars "+"), _, (chars "s"), _; split; [reflexivity|by eauto]
    | eexists (chars "+"), _, [], _; split; [reflexivity|by eauto]
    | eexists [], _, (chars "s"), _; split; [reflexivity|by eauto]
    | eexists [], _, [], _; split; [reflexivity|by eauto] ].
Qed.

Lemma hours_at_matches ds u :
  digits ds → hours_unit u → ∃ s' m, matches hours_re (ds ++ u) ∅ s' m.
Proof.
  intros [Hne Hds] (plus & ws & s & rest & -> & Hplus & Hws & Hs).
  eexists rest, _. unfold hours_re.
  eapply M_Cat; [by apply M_Grp, M_Plus|].
  eapply M_Cat; [|eapply M_Cat; [by apply M_Star|]].
  { destruct Hplus as [-> | ->]; [apply M_Opt_none|apply M_Opt_some, M_Chr]. }
  eapply M_Cat; [apply M_Lit|].
  eapply M_Cat; [|apply M_Lit].
  destruct Hs as [-> | ->]; [apply M_Opt_none|apply M_Opt_some, M_Chr].
Qed.

Lemma hours_match_at ds u :
  digits ds → hours_unit u →
  match_at hours_re (ds ++ u) = Some (<[1 := ds]> ∅).
Proof.
  intros Hds Hu.
  destruct (hours_at_matches ds u Hds Hu) as (s' & m & H).
  destruct (match_at_complete _ _ _ _ H) as [m' Hm']. rewrite Hm'.
  apply match_at_sound in Hm' as [s'' H'].
  apply hours_matches in H' as (ds' & u' & E & Hds' & Hu' & ->).
  apply (run_unique is_digit) in E as [-> _];
    [done|apply Hds|by apply hours_unit_ends_run
    |apply Hds'|by apply hours_unit_ends_run].
Qed.

Lemma hours_no_match s : ¬ hours_at s → match_at hours_re s = None.
Proof.
  intros Hno. destruct (match_at hours_re s) as [m|] eqn:Hm; [|done].
  apply match_at_sound in Hm as [s' H].
  apply hours_matches in H as (ds & u & -> & Hds & Hu & _).
  destruct Hno. by exists ds, u.
Qed.

Lemma months_matches s s' m :
  matches months_re s ∅ s' m →
  ∃ n u, s = n ++ u ∧ digits n ∧ months_unit u ∧ m = <[1 := n]> ∅.
Proof.
  unfold months_re. intros H. inv_matches; rewrite take_consumed;
    eexists _, _; (split; [done|]); (split; [done|]); (split; [|done]).
  all: by eexists _, _.
Qed.

Lemma months_at_matches n u :
  digits n → months_unit u → ∃ s' m, matches months_re (n ++ u) ∅ s' m.
Proof.
  intros [Hne Hn] (ws & rest & -> & Hws).
  eexists rest, _. unfold months_re.
  eapply M_Cat; [by apply M_Grp, M_Plus|].
  eapply M_Cat; [by apply M_Star|].
  eapply M_Cat; [apply M_Lit|apply M_Opt_none].
Qed.

Lemma months_match_at n u :
  digits n → months_unit u →
  match_at months_re (n ++ u) = Some (<[1 := n]> ∅).
Proof.
  intros Hn Hu.
  destruct (months_at_matches n u Hn Hu) as (s' & m & H).
  destruct (match_at_complete _ _ _ _ H) as [m' Hm']. rewrite Hm'.
  apply match_at_sound in Hm' as [s'' H'].
  apply months_matches in H' as (n' & u' & E & Hn' & Hu' & ->).
  apply (run_unique is_digit) in E as [-> _];
    [done|apply Hn|by apply months_unit_ends_run
    |apply Hn'|by apply months_unit_ends_run].
Qed.

Lemma months_no_match s : ¬ months_at s → match_at months_re s = None.
Proof.
  intros Hno. destruct (match_at months_re s) as [m|] eqn:Hm; [|done].
  apply match_at_sound in Hm as [s' H].
  apply months_matches in H as (n & u & -> & Hn & Hu & _).
  destruct Hno. by exists n, u.
Qed.

Lemma range_matches s s' m :
  matches months_range_re s ∅ s' m →
  ∃ a b u, s = a ++ u ∧ digits a ∧ range_tail u b ∧
           m = <[2 := b]> (<[1 := a]> ∅).
Proof.
  unfold months_range_re. intros H. inv_matches; rewrite !take_consumed;
    eexists _, _, _; (split; [done|]); (split; [done|]); (split; [|done]).
  all: eexists _, _, _; split; [reflexivity|]; split_and!; try done;
    by eexists _, _.
Qed.

Lemma range_at_matches a b u :
  digits a → range_tail u b →
  ∃ s' m, matches months_range_re (a ++ u) ∅ s' m.
Proof.
  intros [Hne Ha] (ws1 & ws2 & u' & -> & Hws1 & Hws2 & [Hneb Hb]
                   & ws3 & rest & -> & Hws3).
  eexists rest, _. unfold months_range_re.
  eapply M_Cat; [by apply M_Grp, M_Plus|].
  eapply M_Cat; [by apply M_Star|].
  eapply M_Cat; [apply M_Lit|].
  eapply M_Cat; [by apply M_Star|].
  eapply M_Cat; [by apply M_Grp, M_Plus|].
  eapply M_Cat; [by apply M_Star|].
  eapply M_Cat; [apply M_Lit|apply M_Opt_none].
Qed.

Lemma range_match_at a b u :
  digits a → range_tail u b →
  match_at months_range_re (a ++ u) = Some (<[2 := b]> (<[1 := a]> ∅)).
Proof.
  intros Ha Hu.
  destruct (range_at_matches a b u Ha Hu) as (s' & m & H).
  destruct (match_at_complete _ _ _ _ H) as [m' Hm']. rewrite Hm'.
  apply match_at_sound in Hm' as [s'' H'].
  apply range_matches in H' as (a' & b' & u' & E & Ha' & Hu' & ->).
  apply (run_unique is_digit) in E as [-> ->];
    [|apply Ha|by eapply range_tail_ends_run
     |apply Ha'|by eapply range_tail_ends_run].
  by rewrite (range_tail_unique _ _ _ Hu Hu').
Qed.

Lemma range_no_match s : ¬ range_at s → match_at months_range_re s = None.
Proof.
  intros Hno. destruct (match_at months_range_re s) as [m|] eqn:Hm; [|done].
  apply match_at_sound in Hm as [s' H].
  apply range_matches in H as (a & b & u & -> & Ha & Hu & _).
  destruct Hno. by exists a, b, u.
Qed.

End duration_rules.

Section duration_rule_theorems.

Lemma hours_at_match s : hours_at s ↔ is_Some (match_at hours_re s).
Proof.
  split.
  - intros (ds & u & -> & Hds & Hu). by rewrite hours_match_at.
  - intros [m Hm]. destruct (match_at_sound _ _ _ Hm) as [s' H].
    apply hours_matches in H as (ds & u & -> & Hds & Hu & _). by exists ds, u.
Qed.

Lemma months_at_match s : months_at s ↔ is_Some (match_at months_re s).
Proof.
  split.
  - intros (n & u & -> & Hn & Hu). by rewrite months_match_at.
  - intros [m Hm]. destruct (match_at_sound _ _ _ Hm) as [s' H].
    apply months_matches in H as (n & u & -> & Hn & Hu & _). by exists n, u.
Qed.

Lemma range_at_match s : range_at s ↔ is_Some (match_at months_range_re s).
Proof.
  split.
  - intros (a & b & u & -> & Ha & Hu). by rewrite (range_match_at a b).
  - intros [m Hm]. destruct (match_at_sound _ _ _ Hm) as [s' H].
    apply range_matches in H as (a & b & u & -> & Ha & Hu & _).
    by exists a, b, u.
Qed.

(** The general rule of [parse_hours_per_week]: the integer of the first
    place of the text where an integer is followed by the unit; else 25 when
    "less than" occurs whatever the case; else the missing value. *)
Lemma parse_hours_per_week_rule (text : string) :
  (∀ pre ds u,
     chars text = pre ++ ds ++ u → digits ds → hours_unit u →
     (∀ i, i < length pre → ¬ hours_at (drop i (chars text))) →
     parse_hours_per_week (Some text) = Ok (Num (of_Z (digits_val ds)))) ∧
  ((∀ i, ¬ hours_at (drop i (chars text))) →
     occurs_ci "less than" text →
     parse_hours_per_week (Some text) = Ok (Num (of_Z 25))) ∧
  ((∀ i, ¬ hours_at (drop i (chars text))) →
     ¬ occurs_ci "less than" text →
     parse_hours_per_week (Some text) = Ok NaN).
Proof.
  unfold parse_hours_per_week, re_search. split; [|split].
  - intros pre ds u Htext Hds Hu Hfirst.
    rewrite Htext, (search_first_index _ _ _ (<[1 := ds]> ∅)).
    + unfold group. rewrite lookup_insert_eq. simpl.
      by rewrite py_float_digits by apply Hds.
    + intros i Hi. rewrite <- Htext. by apply hours_no_match, Hfirst.
    + by apply hours_match_at.
  - intros Hno Hless. rewrite search_none_index
      by (intros i; apply hours_no_match, Hno).
    apply contains_lower_spec in Hless. by rewrite Hless.
  - intros Hno Hless. rewrite search_none_index
      by (intros i; apply hours_no_match, Hno).
    apply contains_lower_false in Hless. by rewrite Hless.
Qed.

(** The general rule of [parse_duration_weeks]: the mean of the two ends of
    the first range of months, times 4; else 4 times the first single number
    of months; else 2 when "less than 1 month" occurs whatever the case; else
    the missing value. *)
Lemma parse_duration_weeks_rule (text : string) :
  (∀ pre a b u,
     chars text = pre ++ a ++ u → digits a → range_tail u b →
     (∀ i, i < length pre → ¬ range_at (drop i (chars text))) →
     parse_duration_weeks (Some text)
     = Ok (Num ((of_Z (digits_val a) + of_Z (digits_val b)) / of_Z 2
                * of_Z 4)%Qc)) ∧
  ((∀ i, ¬ range_at (drop i (chars text))) →
   (∀ pre n u,
      chars text = pre ++ n ++ u → digits n → months_unit u →
      (∀ i, i < length pre → ¬ months_at (drop i (chars text))) →
      parse_duration_weeks (Some text)
      = Ok (Num (of_Z (digits_val n) * of_Z 4)%Qc)) ∧
   ((∀ i, ¬ months_at (drop i (chars text))) →
      (occurs_ci "less than 1 month" text →
         parse_duration_weeks (Some text) = Ok (Num (of_Z 2))) ∧
      (¬ occurs_ci "less than 1 month" text →
         parse_duration_weeks (Some text) = Ok NaN))).
Proof.
  unfold parse_duration_weeks, re_search. split.
  - intros pre a b u Htext Ha Hu Hfirst.
    rewrite Htext, (search_first_index _ _ _ (<[2 := b]> (<[1 := a]> ∅))).
    + unfold group. rewrite (lookup_insert_ne _ 2 1) by done.
      rewrite !lookup_insert_eq. simpl.
      destruct Hu as (ws1 & ws2 & u' & _ & _ & _ & Hb & _).
      by rewrite !py_float_digits by (apply Ha || apply Hb).
    + intros i Hi. rewrite <- Htext. by apply range_no_match, Hfirst.
    + by apply range_match_at.
  - intros Hnr. rewrite search_none_index
      by (intros i; apply range_no_match, Hnr).
    split.
    + intros pre n u Htext Hn Hu Hfirst.
      rewrite Htext, (search_first_index _ _ _ (<[1 := n]> ∅)).
      * unfold group. rewrite lookup_insert_eq. simpl.
        by rewrite py_float_digits by apply Hn.
      * intros i Hi. rewrite <- Htext. by apply months_no_match, Hfirst.
      * by apply months_match_at.
    + intros Hnm. rewrite search_none_index
        by (intros i; apply months_no_match, Hnm).
      split; intros Hless.
      * apply contains_lower_spec in Hless. by rewrite Hless.
      * apply contains_lower_false in Hless. by rewrite Hless.
Qed.

(** The fallback of [parse_duration_weeks] is reached when "month" is not in
    lower case, and that of [parse_hours_per_week] when no number of hours
    is given. *)
Lemma duration_fallbacks_reached :
  parse_duration_weeks (Some "LESS THAN 1 MONTH") = Ok (Num (of_Z 2)) ∧
  parse_hours_per_week (Some "Less than a day") = Ok (Num (of_Z 25)).
Proof.
  split.
  - apply (parse_duration_weeks_rule "LESS THAN 1 MONTH").
    + intros i H%range_at_match. revert H.
      do 18 (destruct i as [|i]; [by intros [? [=]]|]). by intros [? [=]].
    + intros i H%months_at_match. revert H.
      do 18 (destruct i as [|i]; [by intros [? [=]]|]). by intros [? [=]].
    + by exists "", "LESS THAN 1 MONTH", "".
  - apply (parse_hours_per_week_rule "Less than a day").
    + intros i H%hours_at_match. revert H.
      do 16 (destruct i as [|i]; [by intros [? [=]]|]). by intros [? [=]].
    + by exists "", "Less than", " a day".
Qed.

End duration_rule_theorems.

Section nonneg_facts.

Lemma foldl_digits_nonneg ds acc :
  (0 ≤ acc)%Z → (0 ≤ foldl (λ acc c, 10 * acc + digit_val c) acc ds)%Z.
Proof.
  revert acc. induction ds as [|c ds IH]; intros acc Hacc; cbn [foldl]; [done|].
  apply IH. unfold digit_val. lia.
Qed.

Lemma digits_val_nonneg ds : (0 ≤ digits_val ds)%Z.
Proof. by apply foldl_digits_nonneg. Qed.

Lemma of_Z_nonneg z : (0 ≤ z)%Z → (0 ≤ of_Z z)%Qc.
Proof.
  intros Hz. unfold Qcle, of_Z. simpl. rewrite !Qred_correct.
  change 0%Q with (inject_Z 0). by rewrite <- Zle_Qle.
Qed.

Lemma Qcdiv_nonneg (a b : Qc) : (0 ≤ a)%Qc → (0 ≤ b)%Qc → (0 ≤ a / b)%Qc.
Proof.
  unfold Qcle, Qcdiv. simpl. intros Ha Hb. rewrite !Qred_correct.
  apply Qmult_le_0_compat; [done|]. by apply Qinv_le_0_compat.
Qed.

Lemma Qcmult_nonneg (a b : Qc) : (0 ≤ a)%Qc → (0 ≤ b)%Qc → (0 ≤ a * b)%Qc.
Proof.
  unfold Qcle. simpl. intros Ha Hb. rewrite !Qred_correct.
  by apply Qmult_le_0_compat.
Qed.

Lemma Qcplus_nonneg (a b : Qc) : (0 ≤ a)%Qc → (0 ≤ b)%Qc → (0 ≤ a + b)%Qc.
Proof.
  unfold Qcle. simpl. intros Ha Hb. rewrite !Qred_correct.
  replace 0%Q with (0 + 0)%Q by done. by apply Qplus_le_compat.
Qed.

(** [float] reads no sign: what it returns is not negative. *)
Lemma py_float_nonneg s v : py_float s = Ok v → (0 ≤ v)%Qc.
Proof.
  unfold py_float. destruct (span is_digit s) as [ip rest].
  destruct rest as [|c fp].
  - destruct ip; [done|]. intros [= <-]. apply of_Z_nonneg, digits_val_nonneg.
  - case_decide; [|done]. destruct (_ && _); [|done]. intros [= <-].
    apply Qcdiv_nonneg; apply of_Z_nonneg; [apply digits_val_nonneg|lia].
Qed.

Lemma fmul_nonneg x y : nonneg x → nonneg y → nonneg (fmul x y).
Proof. destruct x, y; simpl; try done. apply Qcmult_nonneg. Qed.

Lemma nanmean_pair_nonneg mn mx :
  nonneg mn → nonneg mx → nonneg (nanmean [mn; mx]).
Proof.
  rewrite nanmean_pair. destruct mn, mx; simpl; try done.
  intros Ha Hb. apply Qcdiv_nonneg; [by apply Qcplus_nonneg|].
  by apply of_Z_nonneg.
Qed.

Lemma parse_hourly_rate_nonneg text mn mx :
  parse_hourly_rate text = Ok (mn, mx) → nonneg mn ∧ nonneg mx.
Proof.
  destruct text as [text|]; simpl; [|by intros [= <- <-]].
  destruct (re_search hourly_rate_re text) as [m|]; [|by intros [= <- <-]].
  destruct (py_float _) as [v1|] eqn:H1; simpl; [|done].
  apply py_float_nonneg in H1.
  destruct (group m 2) as [[|c g2]|]; simpl.
  - by intros [= <- <-].
  - destruct (py_float _) as [v2|] eqn:H2; simpl; [|done].
    apply py_float_nonneg in H2. by intros [= <- <-].
  - by intros [= <- <-].
Qed.

Lemma parse_hours_per_week_nonneg text v :
  parse_hours_per_week text = Ok v → nonneg v.
Proof.
  destruct text as [text|]; simpl; [|by intros [= <-]].
  destruct (re_search hours_re text) as [m|].
  - destruct (py_float _) as [h|] eqn:H; simpl; [|done].
    apply py_float_nonneg in H. by intros [= <-].
  - destruct (contains _ _); intros [= <-]; [|done].
    by apply of_Z_nonneg.
Qed.

Lemma parse_duration_weeks_nonneg text v :
  parse_duration_weeks text = Ok v → nonneg v.
Proof.
  destruct text as [text|]; simpl; [|by intros [= <-]].
  destruct (re_search months_range_re text) as [m|].
  - destruct (py_float (default [] (group m 1))) as [a|] eqn:Ha;
      simpl; [|done].
    destruct (py_float (default [] (group m 2))) as [b|] eqn:Hb;
      simpl; [|done].
    apply py_float_nonneg in Ha, Hb. intros [= <-]. simpl.
    apply Qcmult_nonneg; [|by apply of_Z_nonneg].
    apply Qcdiv_nonneg; [by apply Qcplus_nonneg|by apply of_Z_nonneg].
  - destruct (re_search months_re text) as [m|].
    + destruct (py_float _) as [n|] eqn:Hn; simpl; [|done].
      apply py_float_nonneg in Hn. intros [= <-]. simpl.
      apply Qcmult_nonneg; [done|by apply of_Z_nonneg].
    + destruct (contains _ _); intros [= <-]; [|done].
      by apply of_Z_nonneg.
Qed.

Lemma parse_fixed_price_nonneg text v :
  parse_fixed_price text = Ok v → nonneg v.
Proof.
  destruct text as [text|]; simpl; [|by intros [= <-]].
  destruct (re_search fixed_price_re text) as [m|]; [|by intros [= <-]].
  destruct (py_float _) as [p|] eqn:H; simpl; [|done].
  apply py_float_nonneg in H. by intros [= <-].
Qed.

Lemma estimate_total_pay_nonneg_aux row v :
  estimate_total_pay row = Ok v → nonneg v.
Proof.
  unfold estimate_total_pay. destruct (hourly_or_fixed row) as [t|];
    [|by intros [= <-]].
  destruct (contains "hourly" (lower t)).
  - destruct (parse_hourly_rate (Some t)) as [[mn mx]|] eqn:Hr; simpl; [|done].
    apply parse_hourly_rate_nonneg in Hr as [Hmn Hmx].
    destruct (parse_hours_per_week _) as [h|] eqn:Hh; simpl; [|done].
    destruct (parse_duration_weeks _) as [w|] eqn:Hw; simpl; [|done].
    apply parse_hours_per_week_nonneg in Hh.
    apply parse_duration_weeks_nonneg in Hw.
    intros [= <-]. apply fmul_nonneg; [apply fmul_nonneg|].
    + by apply nanmean_pair_nonneg.
    + destruct h; simpl; [by apply of_Z_nonneg|done].
    + destruct w; simpl; [by apply of_Z_nonneg|done].
  - destruct (contains "fixed" (lower t)); [|by intros [= <-]].
    apply parse_fixed_price_nonneg.
Qed.

End nonneg_facts.

Section first_amount.

Lemma dollar_amount_split s :
  dollar_amount_at s = true →
  ∃ a rest, s = "$"%char :: a ++ rest ∧ amount a ∧
            ends_run is_amount_char rest.
Proof.
  destruct s as [|c [|c' s]]; simpl; [done..|].
  intros [Hc Hc']%andb_true_iff. apply bool_decide_eq_true in Hc as ->.
  destruct (span_spec is_amount_char (c' :: s)) as (Hs & Ha & Hrest).
  exists (span is_amount_char (c' :: s)).1, (span is_amount_char (c' :: s)).2.
  split; [by rewrite <- Hs|]. split; [|done]. split; [|done].
  simpl. rewrite Hc'. by destruct (span is_amount_char s).
Qed.

Lemma rate_match_group1 a rest :
  amount a → ends_run is_amount_char rest →
  ∃ m, match_at hourly_rate_re ("$"%char :: a ++ rest) = Some m ∧
       group m 1 = Some a.
Proof.
  intros Ha Hrest. rewrite rate_match_at by done.
  destruct (exec _ _ _ _) as [m|] eqn:E.
  - exists m. split; [done|].
    apply exec_sound in E as (s' & g' & H & [= ->]). inv_matches.
    unfold group. by rewrite lookup_insert_ne, lookup_insert_eq.
  - eexists. split; [done|]. apply lookup_insert_eq.
Qed.

(** The two amount patterns match at the same places, with the same first
    capture. *)
Lemma search_rate_fixed s :
  match search hourly_rate_re s, search fixed_price_re s with
  | Some m, Some m' => group m 1 = group m' 1 ∧ is_Some (group m 1)
  | None, None => ∀ i, dollar_amount_at (drop i s) = false
  | _, _ => False
  end.
Proof.
  induction s as [|c s IH].
  - cbn [search]. rewrite rate_no_match, fixed_price_no_match by done.
    intros i. by rewrite drop_nil.
  - cbn [search]. destruct (dollar_amount_at (c :: s)) eqn:Hd.
    + apply dollar_amount_split in Hd as (a & rest & -> & Ha & Hrest).
      destruct (rate_match_group1 a rest Ha Hrest) as (m & -> & Hm).
      rewrite fixed_price_match_at by done.
      unfold group in *. rewrite Hm, lookup_insert_eq. eauto.
    + rewrite rate_no_match, fixed_price_no_match by done.
      destruct (search hourly_rate_re s), (search fixed_price_re s);
        try done.
      intros [|i]; [done|]. apply IH.
Qed.

Lemma re_search_rate_none text :
  re_search hourly_rate_re text = None ↔ ¬ has_amount text.
Proof.
  unfold re_search, has_amount.
  pose proof (search_rate_fixed (chars text)) as H. split.
  - intros E. rewrite E in H.
    destruct (search fixed_price_re (chars text)); [done|].
    intros [i Hi]. by rewrite H in Hi.
  - intros Hno. apply search_none_index. intros i. apply rate_no_match.
    destruct (dollar_amount_at _) eqn:E; [|done]. destruct Hno. eauto.
Qed.

Lemma re_search_fixed_none text :
  re_search fixed_price_re text = None ↔ ¬ has_amount text.
Proof.
  unfold re_search, has_amount.
  pose proof (search_rate_fixed (chars text)) as H. split.
  - intros E. rewrite E in H.
    destruct (search hourly_rate_re (chars text)); [done|].
    intros [i Hi]. by rewrite H in Hi.
  - intros Hno. apply search_none_index. intros i. apply fixed_price_no_match.
    destruct (dollar_amount_at _) eqn:E; [|done]. destruct Hno. eauto.
Qed.

End first_amount.

Section amount_presence.

Lemma matches_rate_dollar_amount suf s' m :
  matches hourly_rate_re suf ∅ s' m → dollar_amount_at suf = true.
Proof.
  unfold hourly_rate_re. intros H. inv_matches;
    match goal with
    | Ha : forallb is_amount_char ?a = true, Hne : ?a ≠ [] |- _ =>
        destruct a as [|c a]; [done|]; simpl in *;
        by apply andb_true_iff in Ha as [-> _]
    end.
Qed.

Lemma matches_fixed_dollar_amount suf s' m :
  matches fixed_price_re suf ∅ s' m → dollar_amount_at suf = true.
Proof.
  unfold fixed_price_re. intros H. inv_matches.
  match goal with
  | Ha : forallb is_amount_char ?a = true, Hne : ?a ≠ [] |- _ =>
      destruct a as [|c a]; [done|]; simpl in *;
      by apply andb_true_iff in Ha as [-> _]
  end.
Qed.

Lemma re_search_rate_Some text :
  is_Some (re_search hourly_rate_re text) ↔ has_amount text.
Proof.
  split.
  - intros [m (pre & suf & s' & E & H)%search_sound].
    exists (length pre). rewrite E, drop_app_length.
    by eapply matches_rate_dollar_amount.
  - intros H. destruct (re_search hourly_rate_re text) eqn:E; [done|].
    by apply re_search_rate_none in E.
Qed.

Lemma re_search_fixed_Some text :
  is_Some (re_search fixed_price_re text) ↔ has_amount text.
Proof.
  split.
  - intros [m (pre & suf & s' & E & H)%search_sound].
    exists (length pre). rewrite E, drop_app_length.
    by eapply matches_fixed_dollar_amount.
  - intros H. destruct (re_search fixed_price_re text) eqn:E; [done|].
    by apply re_search_fixed_none in E.
Qed.

(** When [parse_hourly_rate] returns, the rates are present exactly when
    the text has an amount. *)
Lemma parse_hourly_rate_present text mn mx :
  parse_hourly_rate (Some text) = Ok (mn, mx) →
  (has_amount text → ∃ a b, mn = Num a ∧ mx = Num b) ∧
  (¬ has_amount text → mn = NaN ∧ mx = NaN).
Proof.
  unfold parse_hourly_rate.
  destruct (re_search hourly_rate_re text) as [m|] eqn:E.
  - assert (has_amount text) by (apply re_search_rate_Some; by rewrite E).
    destruct (py_float _) as [v1|]; simpl; [|done].
    destruct (group m 2) as [[|c g2]|]; simpl;
      try (intros [= <- <-]; split; [eauto|done]).
    destruct (py_float _) as [v2|]; simpl; [|done].
    intros [= <- <-]; split; [eauto|done].
  - apply re_search_rate_none in E. intros [= <- <-]. by split.
Qed.

Lemma parse_fixed_price_present text v :
  parse_fixed_price (Some text) = Ok v → (present v ↔ has_amount text).
Proof.
  unfold parse_fixed_price.
  destruct (re_search fixed_price_re text) as [m|] eqn:E.
  - assert (has_amount text) by (apply re_search_fixed_Some; by rewrite E).
    destruct (py_float _) as [p|]; simpl; [|done]. by intros [= <-].
  - apply re_search_fixed_none in E. intros [= <-]. by split.
Qed.

End amount_presence.

(** ** Further properties of the parsers *)

(** X1. [parse_hours_per_week] and [parse_duration_weeks] return on every
    input: what they pass to [float] is always a non-empty run of digits,
    so that no [ValueError] can leave them. *)
Theorem hours_and_weeks_never_raise (text : option string) :
  (∃ hours, parse_hours_per_week text = Ok hours) ∧
  (∃ weeks, parse_duration_weeks text = Ok weeks).
Proof.
  split; [apply parse_hours_per_week_total|apply parse_duration_weeks_total].
Qed.

(** X2. [parse_hours_per_week] on a text: when an integer followed by the
    unit of the hours per week ("+" or not, blanks or not, "hr" or "hrs",
    "/week") starts somewhere, the result is the integer of the first such
    place, whether "less than" occurs or not; when there is no such place,
    the result is 25 if "less than" occurs whatever the case, and is
    missing otherwise. *)
Theorem parse_hours_per_week_cases (text : string) :
  (∀ pre ds u,
     chars text = pre ++ ds ++ u → digits ds → hours_unit u →
     (∀ i, i < length pre → ¬ hours_at (drop i (chars text))) →
     parse_hours_per_week (Some text) = Ok (Num (of_Z (digits_val ds)))) ∧
  ((∀ i, ¬ hours_at (drop i (chars text))) →
     occurs_ci "less than" text →
     parse_hours_per_week (Some text) = Ok (Num (of_Z 25))) ∧
  ((∀ i, ¬ hours_at (drop i (chars text))) →
     ¬ occurs_ci "less than" text →
     parse_hours_per_week (Some text) = Ok NaN).
Proof. apply parse_hours_per_week_rule. Qed.

Lemma parse_hours_per_week_cases_witness :
  parse_hours_per_week (Some "Less than 30 hrs/week") = Ok (Num (of_Z 30)) ∧
  parse_hours_per_week (Some "Less than part time") = Ok (Num (of_Z 25)) ∧
  parse_hours_per_week (Some "part time") = Ok NaN.
Proof.
  split; [|split].
  - apply (parse_hours_per_week_cases "Less than 30 hrs/week")
      with (pre := chars "Less than ") (ds := chars "30")
           (u := chars " hrs/week").
    + done.
    + done.
    + exists [], (chars " "), (chars "s"), [].
      split; [done|]. split; [by left|]. split; [done|by right].
    + intros i Hi H%hours_at_match. revert H.
      do 10 (destruct i as [|i]; [by intros [? [=]]|]). simpl in Hi. lia.
  - apply (parse_hours_per_week_cases "Less than part time").
    + intros i H%hours_at_match. revert H.
      do 20 (destruct i as [|i]; [by intros [? [=]]|]). by intros [? [=]].
    + by exists "", "Less than", " part time".
  - apply (parse_hours_per_week_cases "part time").
    + intros i H%hours_at_match. revert H.
      do 10 (destruct i as [|i]; [by intros [? [=]]|]). by intros [? [=]].
    + by apply contains_lower_false.
Defined.

(** X3. [parse_duration_weeks] on a text: when a range of months "A to B
    month" starts somewhere, the result is the mean of the two ends of the
    first range, times 4; else, when a single number of months starts
    somewhere, 4 times the first such number, whether "less than 1 month"
    occurs or not; else 2 if "less than 1 month" occurs whatever the case;
    else missing. *)
Theorem parse_duration_weeks_cases (text : string) :
  (∀ pre a b u,
     chars text = pre ++ a ++ u → digits a → range_tail u b →
     (∀ i, i < length pre → ¬ range_at (drop i (chars text))) →
     parse_duration_weeks (Some text)
     = Ok (Num ((of_Z (digits_val a) + of_Z (digits_val b)) / of_Z 2
                * of_Z 4)%Qc)) ∧
  ((∀ i, ¬ range_at (drop i (chars text))) →
   (∀ pre n u,
      chars text = pre ++ n ++ u → digits n → months_unit u →
      (∀ i, i < length pre → ¬ months_at (drop i (chars text))) →
      parse_duration_weeks (Some text)
      = Ok (Num (of_Z (digits_val n) * of_Z 4)%Qc)) ∧
   ((∀ i, ¬ months_at (drop i (chars text))) →
      (occurs_ci "less than 1 month" text →
         parse_duration_weeks (Some text) = Ok (Num (of_Z 2))) ∧
      (¬ occurs_ci "less than 1 month" text →
         parse_duration_weeks (Some text) = Ok NaN))).
Proof. apply parse_duration_weeks_rule. Qed.

Lemma parse_duration_weeks_cases_witness :
  parse_duration_weeks (Some "3 to 6 months")
    = Ok (Num ((of_Z 3 + of_Z 6) / of_Z 2 * of_Z 4)%Qc) ∧
  parse_duration_weeks (Some "Less than 1 month")
    = Ok (Num (of_Z 1 * of_Z 4)%Qc) ∧
  parse_duration_weeks (Some "LESS THAN 1 MONTH") = Ok (Num (of_Z 2)) ∧
  parse_duration_weeks (Some "ongoing") = Ok NaN.
Proof.
  split; [|split; [|split]].
  - destruct (parse_duration_weeks_cases "3 to 6 months") as [Hrange _].
    apply (Hrange [] (chars "3") (chars "6") (chars " to 6 months")).
    + done.
    + done.
    + exists (chars " "), (chars " "), (chars " months").
      split; [done|]. split_and!; try done. by exists (chars " "), (chars "s").
    + intros i Hi. simpl in Hi. lia.
  - destruct (parse_duration_weeks_cases "Less than 1 month") as [_ Hrest].
    destruct Hrest as [Hsingle _].
    { intros i H%range_at_match. revert H.
      do 18 (destruct i as [|i]; [by intros [? [=]]|]). by intros [? [=]]. }
    apply (Hsingle (chars "Less than ") (chars "1") (chars " month")).
    + done.
    + done.
    + by exists (chars " "), [].
    + intros i Hi H%months_at_match. revert H.
      do 10 (destruct i as [|i]; [by intros [? [=]]|]). simpl in Hi. lia.
  - destruct (parse_duration_weeks_cases "LESS THAN 1 MONTH") as [_ Hrest].
    destruct Hrest as [_ Hnone].
    { intros i H%range_at_match. revert H.
      do 18 (destruct i as [|i]; [by intros [? [=]]|]). by intros [? [=]]. }
    destruct Hnone as [Hless _].
    { intros i H%months_at_match. revert H.
      do 18 (destruct i as [|i]; [by intros [? [=]]|]). by intros [? [=]]. }
    apply Hless. by exists "", "LESS THAN 1 MONTH", "".
  - destruct (parse_duration_weeks_cases "ongoing") as [_ Hrest].
    destruct Hrest as [_ Hnone].
    { intros i H%range_at_match. revert H.
      do 8 (destruct i as [|i]; [by intros [? [=]]|]). by intros [? [=]]. }
    destruct Hnone as [_ Hnan].
    { intros i H%months_at_match. revert H.
      do 8 (destruct i as [|i]; [by intros [? [=]]|]). by intros [? [=]]. }
    apply Hnan. by apply contains_lower_false.
Defined.

(** X4. [parse_fixed_price] answers the missing value on a text where no
    dollar sign is followed by an amount; otherwise it takes the first such
    dollar sign and the whole run of digits, commas and dots after it, drops
    the commas and answers what [float] makes of the rest: the number, or the
    [ValueError] of [float]. *)
Theorem parse_fixed_price_cases (text : string) :
  ((∀ i, dollar_amount_at (drop i (chars text)) = false) →
     parse_fixed_price (Some text) = Ok NaN) ∧
  (∀ pre a rest,
     chars text = pre ++ "$"%char :: a ++ rest →
     (∀ i, i < length pre → dollar_amount_at (drop i (chars text)) = false) →
     amount a → ends_run is_amount_char rest →
     parse_fixed_price (Some text) = Num <$> py_float (remove_char "," a)).
Proof. apply parse_fixed_price_rule. Qed.

Lemma parse_fixed_price_cases_witness :
  parse_fixed_price (Some "n/a") = Ok NaN ∧
  parse_fixed_price (Some "Est. $1,250.50 total")
    = Ok (Num (of_Z 2501 / of_Z 2)%Qc) ∧
  parse_fixed_price (Some "Pay $750.00.") = Raise ValueError.
Proof.
  split; [|split].
  - apply (parse_fixed_price_cases "n/a").
    intros i. do 4 (destruct i as [|i]; [done|]). done.
  - transitivity (Num <$> py_float (remove_char "," (chars "1,250.50")));
      [|vm_compute; qc_eq].
    apply (parse_fixed_price_cases "Est. $1,250.50 total")
      with (pre := chars "Est. ") (rest := chars " total"); try done.
    intros i Hi. do 5 (destruct i as [|i]; [done|]). simpl in Hi. lia.
  - transitivity (Num <$> py_float (remove_char "," (chars "750.00.")));
      [|done].
    apply (parse_fixed_price_cases "Pay $750.00.")
      with (pre := chars "Pay ") (rest := []); try done.
    intros i Hi. do 4 (destruct i as [|i]; [done|]). simpl in Hi. lia.
Defined.

(** X5. No parser returns a negative number: the patterns read no sign, so
    every rate, number of hours, number of weeks and price that is present
    is at least 0. *)
Theorem parsers_return_nonneg (text : option string) :
  (∀ mn mx, parse_hourly_rate text = Ok (mn, mx) → nonneg mn ∧ nonneg mx) ∧
  (∀ hours, parse_hours_per_week text = Ok hours → nonneg hours) ∧
  (∀ weeks, parse_duration_weeks text = Ok weeks → nonneg weeks) ∧
  (∀ price, parse_fixed_price text = Ok price → nonneg price).
Proof.
  split; [|split; [|split]].
  - apply parse_hourly_rate_nonneg.
  - apply parse_hours_per_week_nonneg.
  - apply parse_duration_weeks_nonneg.
  - apply parse_fixed_price_nonneg.
Qed.

Lemma parsers_return_nonneg_witness :
  (nonneg (Num (of_Z 75)) ∧ nonneg (Num (of_Z 100))) ∧
  nonneg (Num (of_Z 30)) ∧ nonneg (Num (of_Z 8)) ∧ nonneg (Num (of_Z 750)).
Proof.
  split; [|split; [|split]].
  - destruct (parsers_return_nonneg (Some "Hourly: $75.00 - $100.00"))
      as (H & _). apply H. vm_compute. qc_eq.
  - destruct (parsers_return_nonneg (Some "30+ hrs/week")) as (_ & H & _).
    apply H. vm_compute. qc_eq.
  - destruct (parsers_return_nonneg (Some "1 to 3 months")) as (_ & _ & H & _).
    apply H. vm_compute. qc_eq.
  - destruct (parsers_return_nonneg (Some "$750.00")) as (_ & _ & _ & H).
    apply H. vm_compute. qc_eq.
Defined.

(** X6. The estimate of the total pay, when [estimate_total_pay] returns
    one, is missing or at least 0. *)
Theorem estimate_total_pay_nonneg (row : posting) (total : pyfloat) :
  estimate_total_pay row = Ok total → nonneg total.
Proof. apply estimate_total_pay_nonneg_aux. Qed.

Lemma estimate_total_pay_nonneg_witness :
  nonneg (Num (of_Z 7200)).
Proof.
  apply (estimate_total_pay_nonneg
           (Posting None None None (Some "Hourly: $20.00 - $40.00") None
              (Some "unspecified") None [])).
  vm_compute. qc_eq.
Defined.

(** X7. [parse_fixed_price] and [parse_hourly_rate] read the same first
    amount of a text: when [parse_hourly_rate] returns a pair, its minimum
    is what [parse_fixed_price] returns on the same text, and when
    [parse_fixed_price] raises, so does [parse_hourly_rate]. *)
Theorem parse_fixed_price_is_min_rate (text : option string) :
  (∀ mn mx, parse_hourly_rate text = Ok (mn, mx) →
     parse_fixed_price text = Ok mn) ∧
  (∀ e, parse_fixed_price text = Raise e → parse_hourly_rate text = Raise e).
Proof.
  destruct text as [text|]; [|split; [by intros mn mx [= <- <-]|done]].
  unfold parse_hourly_rate, parse_fixed_price, re_search.
  pose proof (search_rate_fixed (chars text)) as H.
  destruct (search hourly_rate_re (chars text)) as [m|],
           (search fixed_price_re (chars text)) as [m'|]; try done.
  - destruct H as [<- _].
    destruct (py_float _) as [v1|]; simpl;
      [|split; [intros ?? [=]|by intros ? [= ->]]].
    split; [|done]. intros mn mx.
    destruct (group m 2) as [[|c g2]|]; simpl; try by intros [= <- <-].
    destruct (py_float _) as [v2|]; simpl; [|done]. by intros [= <- <-].
  - split; [by intros mn mx [= <- <-]|done].
Qed.

Lemma parse_fixed_price_is_min_rate_witness :
  parse_fixed_price (Some "Hourly: $75.00 - $100.00") = Ok (Num (of_Z 75)) ∧
  parse_hourly_rate (Some "Pay $750.00.") = Raise ValueError.
Proof.
  split.
  - apply (proj1 (parse_fixed_price_is_min_rate
                    (Some "Hourly: $75.00 - $100.00")) _ (Num (of_Z 100))).
    vm_compute. qc_eq.
  - by apply (proj2 (parse_fixed_price_is_min_rate (Some "Pay $750.00."))).
Defined.

(** ** Further properties of the estimate *)

(** X8. For a posting that is not hourly, [estimate_total_pay] is
    [parse_fixed_price] of the duration text when "fixed" occurs in the
    pay-type text whatever the case (value or exception alike), and is
    missing when neither word occurs or the pay-type text is missing. *)
Theorem estimate_total_pay_fixed_or_unknown (row : posting) :
  (∀ t, hourly_or_fixed row = Some t → ¬ occurs_ci "hourly" t →
     occurs_ci "fixed" t →
     estimate_total_pay row = parse_fixed_price (duration_or_budget row)) ∧
  (∀ t, hourly_or_fixed row = Some t → ¬ occurs_ci "hourly" t →
     ¬ occurs_ci "fixed" t → estimate_total_pay row = Ok NaN) ∧
  (hourly_or_fixed row = None → estimate_total_pay row = Ok NaN).
Proof. apply estimate_total_pay_not_hourly. Qed.

Lemma estimate_total_pay_fixed_or_unknown_witness :
  estimate_total_pay
    (Posting None None None (Some "Fixed-price") None (Some "$750.00") None [])
  = parse_fixed_price (Some "$750.00") ∧
  estimate_total_pay
    (Posting None None None (Some "Negotiable") None (Some "$750.00") None [])
  = Ok NaN ∧
  estimate_total_pay
    (Posting None None None None None (Some "$750.00") None []) = Ok NaN.
Proof.
  split; [|split].
  - destruct (estimate_total_pay_fixed_or_unknown
      (Posting None None None (Some "Fixed-price") None (Some "$750.00")
         None [])) as (H & _).
    apply (H "Fixed-price"); [done|by apply contains_lower_false|].
    by exists "", "Fixed", "-price".
  - destruct (estimate_total_pay_fixed_or_unknown
      (Posting None None None (Some "Negotiable") None (Some "$750.00")
         None [])) as (_ & H & _).
    apply (H "Negotiable"); [done|by apply contains_lower_false..].
  - destruct (estimate_total_pay_fixed_or_unknown
      (Posting None None None None None (Some "$750.00") None []))
      as (_ & _ & H).
    by apply H.
Defined.

(** X9. When [estimate_total_pay] returns, a present estimate needs a dollar
    amount: the posting is hourly and its pay-type text has one, or it is
    fixed (and not hourly) and its duration text has one. For a posting that
    is fixed and not hourly the converse holds too: a dollar amount in the
    duration text makes the estimate present. *)
Theorem estimate_total_pay_present_needs_amount (row : posting)
    (total : pyfloat) :
  estimate_total_pay row = Ok total →
  (present total →
   ∃ t, hourly_or_fixed row = Some t ∧
     ((occurs_ci "hourly" t ∧ has_amount t) ∨
      (¬ occurs_ci "hourly" t ∧ occurs_ci "fixed" t ∧
       ∃ b, duration_or_budget row = Some b ∧ has_amount b))) ∧
  (∀ t b, hourly_or_fixed row = Some t → ¬ occurs_ci "hourly" t →
     occurs_ci "fixed" t → duration_or_budget row = Some b → has_amount b →
     present total).
Proof.
  unfold estimate_total_pay.
  destruct (hourly_or_fixed row) as [t|];
    [|intros [= <-]; split; [done|by intros t b [=]]].
  destruct (contains "hourly" (lower t)) eqn:Hh.
  - apply contains_lower_spec in Hh.
    destruct (parse_hourly_rate (Some t)) as [[mn mx]|] eqn:Hr; simpl; [|done].
    apply parse_hourly_rate_present in Hr as [_ Hno].
    destruct (parse_hours_per_week _) as [h|]; simpl; [|done].
    destruct (parse_duration_weeks _) as [w|]; simpl; [|done].
    intros [= <-]. rewrite nanmean_pair. split.
    + intros Hp. exists t. split; [done|]. left. split; [done|].
      destruct (re_search hourly_rate_re t) eqn:E.
      * apply re_search_rate_Some. by rewrite E.
      * apply re_search_rate_none in E. destruct (Hno E) as [-> ->].
        by destruct Hp.
    + by intros t' b [= <-] Hn.
  - apply contains_lower_false in Hh.
    destruct (contains "fixed" (lower t)) eqn:Hf.
    + apply contains_lower_spec in Hf.
      destruct (duration_or_budget row) as [b|].
      * intros Hv%parse_fixed_price_present. split.
        -- intros Hb%Hv. exists t. split; [done|]. right. eauto.
        -- intros t' b' _ _ _ [= <-] Hb. by apply Hv.
      * intros [= <-]. split; [done|]. by intros t' b' _ _ _ [=].
    + apply contains_lower_false in Hf. intros [= <-]. split; [done|].
      by intros t' b' [= <-] _ Hf'.
Qed.

Lemma estimate_total_pay_present_needs_amount_witness :
  has_amount "Hourly: $20.00 - $40.00" ∧
  present (Num (of_Z 750)).
Proof.
  assert (H1 : estimate_total_pay
                 (Posting None None None (Some "Hourly: $20.00 - $40.00") None
                    (Some "unspecified") None []) = Ok (Num (of_Z 7200)))
    by (vm_compute; qc_eq).
  assert (H2 : estimate_total_pay
                 (Posting None None None (Some "Fixed-price") None
                    (Some "Budget: $750") None []) = Ok (Num (of_Z 750)))
    by (vm_compute; qc_eq).
  apply estimate_total_pay_present_needs_amount in H1 as [H1 _].
  apply estimate_total_pay_present_needs_amount in H2 as [_ H2].
  split.
  - destruct (H1 ltac:(done)) as (t & [= <-] & [[_ Ha]|[Hn _]]); [done|].
    destruct Hn. by exists "", "Hourly", ": $20.00 - $40.00".
  - apply (H2 "Fixed-price" "Budget: $750"); try done.
    + by apply contains_lower_false.
    + by exists "", "Fixed", "-price".
    + by exists 8.
Defined.

Section characters.

(** The facts on single characters, checked on each of them. *)
Lemma char_facts c :
  lower_char (lower_char c) = lower_char c ∧
  upper_char (upper_char c) = upper_char c ∧
  lower_char (upper_char c) = lower_char c ∧
  upper_char (lower_char c) = upper_char c ∧
  is_cased (lower_char c) = is_cased c ∧
  is_cased (upper_char c) = is_cased c ∧
  is_space (lower_char c) = is_space c ∧
  (is_cased c = false → lower_char c = c ∧ upper_char c = c) ∧
  (is_space c = true → is_cased c = false) ∧
  (is_digit c = true → is_cased c = false).
Proof.
  destruct c as [[] [] [] [] [] [] [] []]; vm_compute; by repeat split.
Qed.

Lemma lower_char_idemp c : lower_char (lower_char c) = lower_char c.
Proof. pose proof (char_facts c). tauto. Qed.

Lemma upper_char_idemp c : upper_char (upper_char c) = upper_char c.
Proof. pose proof (char_facts c). tauto. Qed.

Lemma lower_upper_char c : lower_char (upper_char c) = lower_char c.
Proof. pose proof (char_facts c). tauto. Qed.

Lemma upper_lower_char c : upper_char (lower_char c) = upper_char c.
Proof. pose proof (char_facts c). tauto. Qed.

Lemma is_cased_lower_char c : is_cased (lower_char c) = is_cased c.
Proof. pose proof (char_facts c). tauto. Qed.

Lemma is_cased_upper_char c : is_cased (upper_char c) = is_cased c.
Proof. pose proof (char_facts c). tauto. Qed.

Lemma is_space_lower_char c : is_space (lower_char c) = is_space c.
Proof. pose proof (char_facts c). tauto. Qed.

Lemma uncased_lower_char c : is_cased c = false → lower_char c = c.
Proof. pose proof (char_facts c). tauto. Qed.

Lemma uncased_upper_char c : is_cased c = false → upper_char c = c.
Proof. pose proof (char_facts c). tauto. Qed.

Lemma is_space_uncased c : is_space c = true → is_cased c = false.
Proof. pose proof (char_facts c). tauto. Qed.

Lemma is_digit_uncased c : is_digit c = true → is_cased c = false.
Proof. pose proof (char_facts c). tauto. Qed.

Lemma same_letter_cased c c' : same_letter c c' → is_cased c' = is_cased c.
Proof.
  unfold same_letter. intros H.
  by rewrite <- (is_cased_lower_char c'), H, is_cased_lower_char.
Qed.

Lemma same_letter_space c c' : same_letter c c' → is_space c' = is_space c.
Proof.
  unfold same_letter. intros H.
  by rewrite <- (is_space_lower_char c'), H, is_space_lower_char.
Qed.

Lemma same_letter_upper c c' : same_letter c c' → upper_char c' = upper_char c.
Proof.
  unfold same_letter. intros H.
  by rewrite <- (upper_lower_char c'), H, upper_lower_char.
Qed.

Lemma same_letter_uncased c c' :
  same_letter c c' → is_cased c = false → c' = c.
Proof.
  intros H Hc. pose proof (same_letter_cased _ _ H) as Hc'. rewrite Hc in Hc'.
  unfold same_letter in H.
  by rewrite (uncased_lower_char c), (uncased_lower_char c') in H.
Qed.

End characters.

Section skill_strings.

Lemma chars_title s : chars (title s) = title_go false (chars s).
Proof. apply chars_str. Qed.

Lemma chars_strip s :
  chars (strip s) = reverse (lstrip (reverse (lstrip (chars s)))).
Proof. apply chars_str. Qed.

Lemma chars_empty s : chars s = [] ↔ s = "".
Proof.
  split; [|by intros ->]. intros H. apply chars_inj. by rewrite H.
Qed.

(** [title] changes the case of the characters and nothing else. *)
Lemma title_go_same_letter b l : Forall2 same_letter l (title_go b l).
Proof.
  revert b. induction l as [|c l IH]; intros b; simpl; constructor; [|done].
  unfold same_letter. destruct b; [apply lower_char_idemp|apply lower_upper_char].
Qed.

Lemma same_letter_lower l l' :
  Forall2 same_letter l l' ↔ lower_char <$> l' = lower_char <$> l.
Proof.
  split.
  - induction 1 as [|c c' l l' H _ IH]; csimpl; [done|]. by rewrite H, IH.
  - revert l'. induction l as [|c l IH]; intros [|c' l']; csimpl; try done.
    intros [= H1 H2]. constructor; [done|by apply IH].
Qed.

(** [title] is determined by the text up to the case. *)
Lemma title_go_same b l l' :
  Forall2 same_letter l l' → title_go b l' = title_go b l.
Proof.
  intros H. revert b. induction H as [|c c' l l' Hc _ IH]; intros b; simpl;
    [done|].
  rewrite (same_letter_cased _ _ Hc), IH. f_equal.
  destruct b; [done|by apply same_letter_upper].
Qed.

Lemma title_go_idemp b l : title_go b (title_go b l) = title_go b l.
Proof. apply title_go_same, title_go_same_letter. Qed.

(** A text without letters is only equal to itself up to the case. *)
Lemma same_letter_uncased_eq l l' :
  Forall2 same_letter l l' →
  forallb (λ c, negb (is_cased c)) l = true → l' = l.
Proof.
  induction 1 as [|c c' l l' Hc _ IH]; simpl; [done|].
  intros [Hu Hl]%andb_true_iff. apply negb_true_iff in Hu.
  by rewrite (same_letter_uncased _ _ Hc Hu), IH.
Qed.

Lemma same_letter_sym l l' :
  Forall2 same_letter l l' → Forall2 same_letter l' l.
Proof. rewrite !same_letter_lower. done. Qed.

Lemma lstrip_span l : lstrip l = (span is_space l).2.
Proof.
  induction l as [|c l IH]; simpl; [done|].
  destruct (is_space c); [|done]. rewrite IH. by destruct (span is_space l).
Qed.

Lemma lstrip_ends_run l : ends_run is_space (lstrip l).
Proof. rewrite lstrip_span. apply span_spec. Qed.

Lemma lstrip_fixed l : ends_run is_space l → lstrip l = l.
Proof. destruct l as [|c l]; simpl; [done|]. by intros ->. Qed.

Lemma lstrip_suffix l : ∃ ws, l = ws ++ lstrip l.
Proof.
  rewrite lstrip_span. exists (span is_space l).1. apply span_spec.
Qed.

(** What [strip] returns has no white space at either end. *)
Lemma strip_trimmed s : trimmed (chars (strip s)).
Proof.
  rewrite chars_strip. split.
  - destruct (lstrip_suffix (reverse (lstrip (chars s)))) as [ws Hws].
    pose proof (lstrip_ends_run (chars s)) as Hhead.
    apply (f_equal reverse) in Hws.
    rewrite reverse_involutive, reverse_app in Hws.
    destruct (reverse (lstrip (reverse (lstrip (chars s))))) as [|c r];
      [done|]. rewrite Hws in Hhead. done.
  - rewrite reverse_involutive. apply lstrip_ends_run.
Qed.

Lemma trimmed_strip s : trimmed (chars s) → strip s = s.
Proof.
  intros [H1 H2]. apply chars_inj. rewrite chars_strip.
  by rewrite (lstrip_fixed _ H1), (lstrip_fixed _ H2), reverse_involutive.
Qed.

Lemma strip_idemp s : strip (strip s) = strip s.
Proof. apply trimmed_strip, strip_trimmed. Qed.

Lemma same_letter_ends_run l l' :
  Forall2 same_letter l l' → ends_run is_space l → ends_run is_space l'.
Proof.
  destruct 1 as [|c c' l l' Hc _]; simpl; [done|].
  by rewrite (same_letter_space _ _ Hc).
Qed.

Lemma same_letter_trimmed l l' :
  Forall2 same_letter l l' → trimmed l → trimmed l'.
Proof.
  intros H [H1 H2]. split; [by eapply same_letter_ends_run|].
  eapply same_letter_ends_run; [|done]. by apply Forall2_reverse.
Qed.

(** The pattern of the continuation markers, on a text that [strip]
    returned. *)
Lemma plus_digits_match l :
  trimmed l → is_Some (match_at plus_digits_re l) ↔ plus_digits l.
Proof.
  intros [_ Hlast]. split.
  - intros [m Hm]. apply match_at_sound in Hm as [s' H].
    unfold plus_digits_re in H. inv_matches.
    + exists a. by rewrite app_nil_r.
    + rewrite app_comm_cons, reverse_app in Hlast. done.
  - intros (ds & [Hne Hds] & ->).
    eapply match_at_complete. unfold plus_digits_re.
    eapply M_Cat; [apply M_Chr|].
    eapply M_Cat; [|apply M_Eos_end].
    rewrite <- (app_nil_r ds). by apply M_Plus.
Qed.

Lemma plus_digits_uncased l :
  plus_digits l → forallb (λ c, negb (is_cased c)) l = true.
Proof.
  intros (ds & [_ Hds] & ->). simpl.
  induction ds as [|c ds IH]; simpl in *; [done|].
  apply andb_true_iff in Hds as [Hc Hds].
  by rewrite (is_digit_uncased _ Hc), IH.
Qed.

Lemma plus_digits_same_letter l l' :
  Forall2 same_letter l l' → plus_digits l → l' = l.
Proof.
  intros H Hl. by apply same_letter_uncased_eq, plus_digits_uncased.
Qed.

End skill_strings.

Section skill_facts.

Lemma lower_title s : lower (title s) = lower s.
Proof.
  apply chars_inj. rewrite !chars_lower, chars_title.
  apply same_letter_lower, title_go_same_letter.
Qed.

Lemma title_idemp s : title (title s) = title s.
Proof. apply chars_inj. rewrite !chars_title. apply title_go_idemp. Qed.

Lemma title_trimmed s : trimmed (chars s) → trimmed (chars (title s)).
Proof.
  rewrite chars_title. apply same_letter_trimmed, title_go_same_letter.
Qed.

Lemma title_nonempty s : s ≠ "" → title s ≠ "".
Proof.
  intros Hs Ht. apply Hs, chars_empty. apply chars_empty in Ht.
  rewrite chars_title in Ht. by destruct (chars s).
Qed.

Lemma title_plus_digits s :
  plus_digits (chars (title s)) → title s = s.
Proof.
  intros H. apply chars_inj. symmetry.
  apply (plus_digits_same_letter (chars (title s))); [|done].
  rewrite chars_title. apply same_letter_sym, title_go_same_letter.
Qed.

Lemma re_match_plus_digits s :
  trimmed (chars s) →
  is_Some (re_match plus_digits_re s) ↔ plus_digits (chars s).
Proof. apply plus_digits_match. Qed.

(** The four tests that a skill passes when it is kept, and the two ways
    its clean form is found. *)
Lemma clean_and_standardize_skill_Some skill v :
  clean_and_standardize_skill (Some skill) = Some v ↔
  ((strip skill ≠ "") ∧ (¬ plus_digits (chars (strip skill))) ∧
   (lower (strip skill) ∉ non_skills) ∧
   (canonical_map !! lower (strip skill) = Some v ∨
    canonical_map !! lower (strip skill) = None ∧ v = title (strip skill))).
Proof.
  unfold clean_and_standardize_skill.
  rewrite <- re_match_plus_digits by apply strip_trimmed.
  repeat case_bool_decide; try (split; [done|tauto]).
  destruct (canonical_map !! lower (strip skill)) as [w|]; split.
  - intros [= ->]. eauto.
  - intros (_ & _ & _ & [[= ->]|[[=] _]]). done.
  - intros [= <-]. eauto 6.
  - intros (_ & _ & _ & [[=]|[_ ->]]). done.
Qed.

Lemma clean_and_standardize_skill_None skill :
  clean_and_standardize_skill (Some skill) = None ↔
  (strip skill = "" ∨ plus_digits (chars (strip skill)) ∨
   lower (strip skill) ∈ non_skills).
Proof.
  unfold clean_and_standardize_skill.
  rewrite <- re_match_plus_digits by apply strip_trimmed.
  repeat case_bool_decide; try (split; [tauto|done]).
  destruct (canonical_map !! lower (strip skill)); (split; [done|tauto]).
Qed.

(** The canonical forms of the table, checked one by one. *)
Lemma canonical_form_facts key v :
  canonical_map !! key = Some v →
  clean_and_standardize_skill (Some v) = Some v ∧
  strip v = v ∧ v ≠ "" ∧ ¬ plus_digits (chars v) ∧
  (lower v ∉ non_skills) ∧ title v = v.
Proof.
  intros H. unfold canonical_map in H. apply elem_of_list_to_map_2 in H.
  repeat (apply elem_of_cons in H as [[= -> ->]|H];
    [split; [by vm_compute|]; split; [by vm_compute|]; split; [done|];
     split; [by intros (ds & _ & [=])|];
     split; [apply (bool_decide_unpack _); by vm_compute|by vm_compute]|]).
  by apply elem_of_nil in H.
Qed.

(** A text kept in title case passes the tests again. *)
Lemma title_form_facts t :
  trimmed (chars t) → (t ≠ "") → ¬ plus_digits (chars t) →
  lower t ∉ non_skills →
  strip (title t) = title t ∧ title t ≠ "" ∧
  ¬ plus_digits (chars (title t)) ∧ lower (title t) ∉ non_skills.
Proof.
  intros Htrim Hne Hplus Hdeny. split_and!.
  - by apply trimmed_strip, title_trimmed.
  - by apply title_nonempty.
  - intros H. apply Hplus. by rewrite <- (title_plus_digits t H).
  - by rewrite lower_title.
Qed.

End skill_facts.

(** ** Further properties of the skill canonicalizer *)

(** X10. [clean_and_standardize_skill] drops a skill exactly when it is
    missing, or blank once stripped, or a "+" followed by digits only, or
    in the denylist once stripped and put in lower case. *)
Theorem clean_and_standardize_skill_dropped :
  clean_and_standardize_skill None = None ∧
  ∀ skill : string,
    clean_and_standardize_skill (Some skill) = None ↔
    (strip skill = "" ∨ plus_digits (chars (strip skill)) ∨
     lower (strip skill) ∈ non_skills).
Proof. split; [done|]. apply clean_and_standardize_skill_None. Qed.

Lemma clean_and_standardize_skill_dropped_witness :
  clean_and_standardize_skill (Some "  +12 ") = None ∧
  clean_and_standardize_skill (Some " Communication Skills") = None ∧
  clean_and_standardize_skill (Some "   ") = None.
Proof.
  destruct clean_and_standardize_skill_dropped as [_ H].
  split; [|split]; apply H.
  - right; left. exists (chars "12"). by split.
  - right; right. apply (bool_decide_unpack _). by vm_compute.
  - by left.
Defined.

(** X11. What [clean_and_standardize_skill] keeps of a skill written in
    ASCII characters is never blank, has no white space at either end, is
    no "+N" marker, is not in the denylist whatever its case, and is in
    title case. *)
Theorem clean_and_standardize_skill_output (skill v : string) :
  ascii_text skill →
  clean_and_standardize_skill (Some skill) = Some v →
  v ≠ "" ∧ strip v = v ∧ (¬ plus_digits (chars v)) ∧
  (lower v ∉ non_skills) ∧ title v = v.
Proof.
  intros _.
  intros (Hne & Hplus & Hdeny & [Hv|[_ ->]])%clean_and_standardize_skill_Some.
  - by destruct (canonical_form_facts _ _ Hv) as (_ & ? & ? & ? & ? & ?).
  - destruct (title_form_facts (strip skill)) as (? & ? & ? & ?);
      [apply strip_trimmed|done..|].
    split_and!; try done. apply title_idemp.
Qed.

Lemma clean_and_standardize_skill_output_witness :
  "Power Bi" ≠ "" ∧ strip "Power Bi" = "Power Bi" ∧
  (¬ plus_digits (chars "Power Bi")) ∧
  (lower "Power Bi" ∉ non_skills) ∧ title "Power Bi" = "Power Bi".
Proof.
  apply (clean_and_standardize_skill_output " power BI ").
  - apply (bool_decide_unpack _). by vm_compute.
  - done.
Defined.

(** X12. [clean_and_standardize_skill] is idempotent on the skills written
    in ASCII characters: cleaning what it returned returns the same. *)
Theorem clean_and_standardize_skill_idempotent_ascii (skill : string) :
  ascii_text skill →
  clean_and_standardize_skill (clean_and_standardize_skill (Some skill))
  = clean_and_standardize_skill (Some skill).
Proof.
  intros _.
  destruct (clean_and_standardize_skill (Some skill)) as [v|] eqn:Hv; [|done].
  apply clean_and_standardize_skill_Some
    in Hv as (Hne & Hplus & Hdeny & [Hv|[Hnone ->]]).
  - by destruct (canonical_form_facts _ _ Hv) as (? & _).
  - destruct (title_form_facts (strip skill)) as (Hs & ? & ? & ?);
      [apply strip_trimmed|done..|].
    apply clean_and_standardize_skill_Some. rewrite Hs.
    split_and!; try done. right.
    by rewrite lower_title, title_idemp.
Qed.

Lemma clean_and_standardize_skill_idempotent_ascii_witness :
  clean_and_standardize_skill (Some " power BI ") = Some "Power Bi" ∧
  clean_and_standardize_skill (Some "Power Bi") = Some "Power Bi".
Proof.
  assert (H : clean_and_standardize_skill (Some " power BI ") = Some "Power Bi")
    by done.
  split; [done|]. rewrite <- H at 1.
  apply clean_and_standardize_skill_idempotent_ascii.
  apply (bool_decide_unpack _). by vm_compute.
Defined.

(** X13. [clean_and_standardize_skill] looks at a skill written in ASCII
    characters up to the case of its letters and the white space around it:
    two such skills that are equal once stripped and put in lower case have
    the same clean form. *)
Theorem clean_and_standardize_skill_case_insensitive (s t : string) :
  ascii_text s → ascii_text t →
  lower (strip s) = lower (strip t) →
  clean_and_standardize_skill (Some s) = clean_and_standardize_skill (Some t).
Proof.
  intros _ _ E.
  assert (Hrel : Forall2 same_letter (chars (strip s)) (chars (strip t))).
  { apply same_letter_lower. by rewrite <- !chars_lower, E. }
  assert (Htitle : title (strip t) = title (strip s)).
  { apply chars_inj. rewrite !chars_title. by apply title_go_same. }
  assert (Hempty : strip s = "" ↔ strip t = "").
  { rewrite <- !chars_empty. split; intros H; rewrite H in Hrel;
      by inversion Hrel. }
  assert (Hplus : plus_digits (chars (strip s)) ↔ plus_digits (chars (strip t))).
  { split; intros H.
    - by rewrite (plus_digits_same_letter _ _ Hrel H).
    - by rewrite (plus_digits_same_letter _ _ (same_letter_sym _ _ Hrel) H). }
  destruct (clean_and_standardize_skill (Some t)) as [v|] eqn:Ht.
  - apply clean_and_standardize_skill_Some. 
    apply clean_and_standardize_skill_Some in Ht.
    rewrite E, Hempty, Hplus, <- Htitle. done.
  - apply clean_and_standardize_skill_None.
    apply clean_and_standardize_skill_None in Ht.
    by rewrite E, Hempty, Hplus.
Qed.

Lemma clean_and_standardize_skill_case_insensitive_witness :
  clean_and_standardize_skill (Some "  DEEP learning")
  = clean_and_standardize_skill (Some "Deep Learning  ").
Proof.
  apply clean_and_standardize_skill_case_insensitive; [| |done];
    apply (bool_decide_unpack _); by vm_compute.
Defined.

Section search_term_rows.

Lemma set_search_term_twice v w r :
  set_search_term w (set_search_term v r) = set_search_term w r.
Proof. done. Qed.

Lemma assign_search_term_twice df c1 c2 :
  length c1 = length df →
  assign_search_term (assign_search_term df c1) c2
  = assign_search_term df c2.
Proof.
  unfold assign_search_term. revert c1 c2.
  induction df as [|r df IH]; intros [|v c1] [|w c2]; simpl; try done.
  intros [= H]. by rewrite IH.
Qed.

(** [standardize_search_term_column] in one assignment. *)
Lemma standardize_search_term_column_assign df :
  standardize_search_term_column df
  = assign_search_term df
      (series_map search_term_map (str_lower (ffill (j_search_term <$> df)))).
Proof.
  unfold standardize_search_term_column.
  assert (L1 : length (ffill (j_search_term <$> df)) = length df)
    by (unfold ffill; by rewrite length_ffill_from, length_fmap).
  rewrite !column_assign_search_term; try done.
  - rewrite !assign_search_term_twice; try done.
    unfold str_lower. by rewrite length_fmap, length_assign_search_term.
  - unfold str_lower. by rewrite length_fmap, length_assign_search_term.
Qed.

Lemma lookup_assign_search_term df col i r :
  assign_search_term df col !! i = Some r ↔
  ∃ r0 v, df !! i = Some r0 ∧ col !! i = Some v ∧ r = set_search_term v r0.
Proof.
  unfold assign_search_term. rewrite lookup_zip_with_Some. split.
  - intros (r0 & v & -> & ? & ?). eauto.
  - intros (r0 & v & ? & ? & ->). eauto.
Qed.

Lemma search_term_map_range key v :
  search_term_map !! key = Some v → v ∈ buckets.
Proof.
  intros H. unfold search_term_map in H. apply elem_of_list_to_map_2 in H.
  repeat (apply elem_of_cons in H as [[= -> ->]|H];
    [unfold buckets; repeat first [apply list_elem_of_here
                                  |apply list_elem_of_further]|]).
  by apply elem_of_nil in H.
Qed.

Lemma series_map_range col i cell :
  series_map search_term_map col !! i = Some cell →
  missing_or_in buckets cell.
Proof.
  unfold series_map. rewrite list_lookup_fmap.
  destruct (col !! i) as [[v|]|]; simpl; try by intros [= <-].
  destruct (search_term_map !! v) as [b|] eqn:Hb; intros [= <-]; [|done].
  by eapply search_term_map_range.
Qed.

(** A cell after the fill holds the running value or a value of the
    column. *)
Lemma ffill_from_cell last col i v :
  ffill_from last col !! i = Some (Some v) →
  last = Some v ∨ Some v ∈ col.
Proof.
  revert last i. induction col as [|x col IH]; intros last i; [done|].
  destruct i as [|i]; simpl.
  - destruct x; intros [= ->]; [right; left|by left].
  - intros [H|H]%IH.
    + destruct x; [simplify_eq; right; left|by left].
    + right. by right.
Qed.

(** The buckets that are keys of the table once in lower case. *)
Lemma bucket_again b :
  b ∈ buckets →
  missing_or_in ["AI"; "statistics"] (search_term_map !! lower b).
Proof.
  unfold buckets. intros H.
  repeat (apply elem_of_cons in H as [->|H];
    [vm_compute; repeat first [done|apply list_elem_of_here
                              |apply list_elem_of_further]|]).
  by apply elem_of_nil in H.
Qed.

(** A row of what [standardize_search_term_column] returns. *)
Lemma standardize_search_term_column_lookup df i r :
  standardize_search_term_column df !! i = Some r →
  ∃ r0 v, df !! i = Some r0 ∧ r = set_search_term v r0 ∧
          missing_or_in buckets v.
Proof.
  rewrite standardize_search_term_column_assign.
  intros (r0 & v & Hr0 & Hv & ->)%lookup_assign_search_term.
  exists r0, v. split; [done|]. split; [done|].
  by eapply series_map_range.
Qed.

End search_term_rows.

(** ** Further properties of the search-term canonicalizer *)

(** X14. [standardize_search_term_column] keeps every row, in order, and
    changes nothing but its search term; every search term it leaves is
    missing or one of the four buckets AI, ML, statistics and data
    engineering. *)
Theorem standardize_search_term_column_rows (df : list job) :
  Forall2 (λ r0 r, r = set_search_term (j_search_term r) r0 ∧
                   missing_or_in buckets (j_search_term r))
    df (standardize_search_term_column df).
Proof.
  apply Forall2_same_length_lookup_2.
  - symmetry. apply length_standardize_search_term_column.
  - intros i r0 r Hr0
      (r0' & v & Hr0' & -> & Hv)%standardize_search_term_column_lookup.
    by simplify_eq.
Qed.

(** X15. A second pass of [standardize_search_term_column] keeps the buckets
    AI and statistics only: every search term it leaves is missing or one of
    these two, since the names of the buckets ML and data engineering are no
    keys of the table. *)
Theorem standardize_search_term_column_twice (df : list job) (i : nat) (r : job) :
  standardize_search_term_column (standardize_search_term_column df) !! i
    = Some r →
  missing_or_in ["AI"; "statistics"] (j_search_term r).
Proof.
  rewrite (standardize_search_term_column_assign
             (standardize_search_term_column df)).
  intros (r0 & cell & _ & Hcell & ->)%lookup_assign_search_term. simpl.
  unfold series_map, str_lower, ffill in Hcell.
  rewrite !list_lookup_fmap in Hcell.
  destruct (ffill_from _ _ !! i) as [[v|]|] eqn:Hv; simpl in Hcell;
    try by simplify_eq.
  injection Hcell as <-.
  apply ffill_from_cell in Hv as [?|Hv]; [done|].
  apply list_elem_of_lookup in Hv as [j Hj].
  rewrite list_lookup_fmap in Hj.
  destruct (standardize_search_term_column df !! j) as [r1|] eqn:Hr1;
    [|done].
  injection Hj as Hj.
  rewrite standardize_search_term_column_assign in Hr1.
  apply lookup_assign_search_term in Hr1 as (r2 & cell & _ & Hcell & ->).
  simpl in Hj. subst cell. apply series_map_range in Hcell.
  by apply bucket_again.
Qed.

Lemma standardize_search_term_column_twice_witness :
  missing_or_in ["AI"; "statistics"] None ∧
  j_search_term <$>
    standardize_search_term_column
      (standardize_search_term_column
         (job_of_search_term <$> [Some "machine"; Some "ai"]))
  = [None; Some "AI"].
Proof.
  split; [|done].
  by apply (standardize_search_term_column_twice
              (job_of_search_term <$> [Some "machine"; Some "ai"]) 0
              (job_of_search_term None)).
Defined.

Section duplicates.

Lemma drop_duplicates_from_elem seen df p :
  p ∈ drop_duplicates_from seen df ↔
  ∃ i, first_of_url df i p ∧ job_url p ∉ seen.
Proof.
  revert seen. induction df as [|r df IH]; intros seen; simpl.
  - split; [by intros ?%elem_of_nil|]. by intros (i & [? _] & _).
  - case_bool_decide as Hr.
    + rewrite IH. split.
      * intros (i & [Hi Hfirst] & Hp). exists (S i). split; [|done].
        split; [done|]. intros [|j] q Hj Hq; simpl in Hq.
        -- injection Hq as <-. by intros E; rewrite E in Hr.
        -- apply (Hfirst j); [lia|done].
      * intros ([|i] & [Hi Hfirst] & Hp); simpl in Hi.
        -- injection Hi as <-. done.
        -- exists i. split; [|done]. split; [done|].
           intros j q Hj Hq. apply (Hfirst (S j)); [lia|done].
    + rewrite elem_of_cons, IH. split.
      * intros [->|(i & [Hi Hfirst] & Hp)].
        -- exists 0. split; [|done]. split; [done|]. intros j q Hj. lia.
        -- apply not_elem_of_cons in Hp as [Hpr Hp].
           exists (S i). split; [|done]. split; [done|].
           intros [|j] q Hj Hq; simpl in Hq.
           ++ by injection Hq as <-.
           ++ apply (Hfirst j); [lia|done].
      * intros ([|i] & [Hi Hfirst] & Hp); simpl in Hi.
        -- injection Hi as <-. by left.
        -- right. exists i. split.
           ++ split; [done|]. intros j q Hj Hq.
              apply (Hfirst (S j)); [lia|done].
           ++ apply not_elem_of_cons. split; [|done].
              intros E. by apply (Hfirst 0 r); [lia|done|].
Qed.

Lemma drop_duplicates_elem df p :
  p ∈ drop_duplicates df ↔ ∃ i, first_of_url df i p.
Proof.
  unfold drop_duplicates. rewrite drop_duplicates_from_elem. split.
  - intros (i & ? & _). eauto.
  - intros (i & ?). exists i. split; [done|]. apply not_elem_of_nil.
Qed.

(** A table with a row keeps its first row. *)
Lemma drop_duplicates_nil df : df ≠ [] → drop_duplicates df ≠ [].
Proof.
  destruct df as [|p df]; [done|]. intros _.
  unfold drop_duplicates. cbn [drop_duplicates_from].
  by rewrite bool_decide_eq_false_2 by apply not_elem_of_nil.
Qed.

Lemma drop_duplicates_from_NoDup seen df :
  NoDup (job_url <$> drop_duplicates_from seen df).
Proof.
  revert seen. induction df as [|r df IH]; intros seen; simpl.
  - constructor.
  - case_bool_decide as Hr; [apply IH|]. csimpl. constructor; [|apply IH].
    intros (p & Hp & Hin)%list_elem_of_fmap.
    apply drop_duplicates_from_elem in Hin as (i & _ & Hseen).
    apply Hseen. rewrite <- Hp. by left.
Qed.

Lemma drop_duplicates_NoDup df : NoDup (job_url <$> drop_duplicates df).
Proof. apply drop_duplicates_from_NoDup. Qed.

(** Two rows that are both the first of the same URL are the same row. *)
Lemma first_of_url_unique df i j p q :
  first_of_url df i p → first_of_url df j q → job_url p = job_url q →
  i = j ∧ p = q.
Proof.
  intros [Hi Hp] [Hj Hq] E.
  destruct (Nat.lt_trichotomy i j) as [Hlt|[->|Hlt]].
  - by destruct (Hq i p Hlt Hi).
  - split; [done|]. congruence.
  - by destruct (Hp j q Hlt Hj).
Qed.

End duplicates.

Section pipeline_rows.

Lemma mapM_Raise {A B} (f : A → result B) l e :
  mapM f l = Raise e ↔ ∃ x, x ∈ l ∧ f x = Raise e.
Proof.
  destruct e. induction l as [|x l IH]; simpl.
  - split; [done|]. intros (x & H & _). by apply elem_of_nil in H.
  - destruct (f x) as [y|[]] eqn:Hx; simpl.
    + destruct (mapM f l) as [k|[]]; simpl.
      * split; [done|].
        intros (x' & [->|Hin]%elem_of_cons & Hx'); [congruence|].
        assert (@Ok (list B) k = Raise ValueError) by (apply IH; eauto).
        done.
      * split; [intros _|done].
        destruct (proj1 IH eq_refl) as (x' & ? & ?).
        exists x'. split; [by right|done].
    + split; [intros _|done]. exists x. split; [by left|done].
Qed.

Lemma add_columns_fields p r :
  add_columns p = Ok r →
  j_title r = job_title p ∧ j_url r = job_url p ∧
  j_search_term r = search_term p ∧ j_description r = job_description p ∧
  j_skills r = skills p ∧
  estimate_total_pay p = Ok (estimated_total_pay r).
Proof.
  unfold add_columns.
  destruct (parse_hourly_rate _) as [[mn mx]|]; simpl; [|done].
  destruct (parse_hours_per_week _) as [hours|]; simpl; [|done].
  destruct (parse_duration_weeks _) as [weeks|]; simpl; [|done].
  destruct (parse_fixed_price _) as [price|]; simpl; [|done].
  destruct (estimate_total_pay p) as [total|]; simpl; [|done].
  by intros [= <-].
Qed.

(** [add_columns] raises exactly when one of the two amount parsers does. *)
Lemma add_columns_Raise p :
  add_columns p = Raise ValueError ↔
  parse_hourly_rate (hourly_or_fixed p) = Raise ValueError ∨
  parse_fixed_price (duration_or_budget p) = Raise ValueError.
Proof.
  unfold add_columns.
  destruct (parse_hourly_rate _) as [[mn mx]|[]] eqn:Hr; simpl;
    [|split; [by left|done]].
  destruct (parse_hours_per_week_total (duration_or_budget p)) as [h ->].
  destruct (parse_duration_weeks_total (duration_or_budget p)) as [w ->].
  simpl.
  destruct (parse_fixed_price _) as [price|[]] eqn:Hp; simpl;
    [|split; [by right|done]].
  destruct (estimate_total_pay p) as [total|[]] eqn:He; simpl;
    [split; [done|by intros [|]]|].
  exfalso. unfold estimate_total_pay in He.
  destruct (hourly_or_fixed p) as [t|]; [|done].
  destruct (contains "hourly" (lower t)).
  - rewrite Hr in He. simpl in He.
    destruct (parse_hours_per_week_total (duration_or_budget p)) as [h' Hh].
    destruct (parse_duration_weeks_total (duration_or_budget p)) as [w' Hw].
    by rewrite Hh, Hw in He.
  - destruct (contains "fixed" (lower t)); [congruence|done].
Qed.

Lemma has_estimate_spec p r :
  estimate_total_pay p = Ok (estimated_total_pay r) →
  (isnan (estimated_total_pay r) = false ↔ has_estimate p = true).
Proof.
  unfold has_estimate. intros ->. by destruct (estimated_total_pay r).
Qed.

(** Filtering two lists that are related row by row. *)
Lemma Forall2_filter_fmap {A B C} (R : A → B → Prop)
    (P : A → Prop) `{!∀ x, Decision (P x)}
    (Q : B → Prop) `{!∀ y, Decision (Q y)} (f : A → C) (g : B → C) l k :
  Forall2 R l k →
  (∀ x y, R x y → (P x ↔ Q y) ∧ f x = g y) →
  f <$> filter P l = g <$> filter Q k.
Proof.
  intros Hlk HR. induction Hlk as [|x y l k Hxy _ IH]; [done|].
  destruct (HR x y Hxy) as [HPQ Hfg].
  rewrite !filter_cons. destruct (decide (P x)), (decide (Q y)); csimpl;
    [by rewrite Hfg, IH|tauto|tauto|done].
Qed.

Lemma fmap_assign_search_term {C} (f : job → C) df col :
  (∀ v r, f (set_search_term v r) = f r) →
  length col = length df →
  f <$> assign_search_term df col = f <$> df.
Proof.
  intros Hf. unfold assign_search_term. revert col.
  induction df as [|r df IH]; intros [|v col]; csimpl; try done.
  intros [= H]. by rewrite Hf, IH.
Qed.

Lemma fmap_standardize_search_term_column {C} (f : job → C) df :
  (∀ v r, f (set_search_term v r) = f r) →
  f <$> standardize_search_term_column df = f <$> df.
Proof.
  intros Hf. rewrite standardize_search_term_column_assign.
  apply fmap_assign_search_term; [done|].
  unfold series_map, str_lower, ffill.
  by rewrite !length_fmap, length_ffill_from, length_fmap.
Qed.

(** The steps of [data_prep] when it returns. *)
Lemma data_prep_Ok df out :
  data_prep df = Ok out ↔
  df ≠ [] ∧
  ∃ js, Forall2 (λ p r, add_columns p = Ok r) (drop_duplicates df) js ∧
    out = clean_skills <$>
            standardize_search_term_column
              (reorder_columns <$> with_estimate js).
Proof.
  unfold data_prep, with_estimate. split.
  - destruct (add_new_columns (drop_duplicates df)) as [js|] eqn:Hjs;
      simpl; [|done].
    intros [= <-]. split; [by intros ->|]. exists js. split; [|done].
    apply mapM_Ok. unfold add_new_columns in Hjs.
    by destruct (drop_duplicates df).
  - intros (Hne & js & Hjs & ->).
    assert (add_new_columns (drop_duplicates df) = Ok js) as ->; [|done].
    apply drop_duplicates_nil in Hne. unfold add_new_columns.
    destruct (drop_duplicates df) as [|p0 l0] eqn:E; [done|].
    clear E Hne. induction Hjs as [|p r l k Hp _ IH]; simpl; [done|].
    by rewrite Hp, IH.
Qed.

(** A column that the last steps leave as it is, read on the rows that
    [drop_duplicates] keeps. *)
Lemma data_prep_column {C} (f : job → C) (g : posting → C) df out :
  (∀ v r, f (set_search_term v r) = f r) →
  (∀ v r, f (set_skills v r) = f r) →
  (∀ p r, add_columns p = Ok r → f r = g p) →
  data_prep df = Ok out →
  f <$> out = g <$> filter (λ p, has_estimate p = true) (drop_duplicates df).
Proof.
  intros Hterm Hskills Hadd (_ & js & Hjs & ->)%data_prep_Ok.
  rewrite <- list_fmap_compose.
  rewrite (fmap_standardize_search_term_column (f ∘ clean_skills))
    by (intros v r; unfold compose, clean_skills; by rewrite !Hskills, Hterm).
  rewrite <- list_fmap_compose. unfold with_estimate. symmetry.
  apply (Forall2_filter_fmap (λ p r, add_columns p = Ok r)); [done|].
  intros p r Hp. split.
  - symmetry. apply has_estimate_spec.
    by apply add_columns_fields in Hp as (_ & _ & _ & _ & _ & ?).
  - unfold compose, clean_skills, reorder_columns. rewrite !Hskills.
    symmetry. by apply Hadd.
Qed.

Lemma filter_NoDup_fmap {A C} (f : A → C) (P : A → Prop)
    `{!∀ x, Decision (P x)} l :
  NoDup (f <$> l) → NoDup (f <$> filter P l).
Proof.
  intros H0. apply (sublist_NoDup _ _ H0), fmap_sublist, sublist_filter.
Qed.

End pipeline_rows.

Section pipeline_records.

(** Where a record of the final table comes from. *)
Lemma data_prep_record df out r :
  data_prep df = Ok out → r ∈ out →
  ∃ i p r0 v,
    first_of_url df i p ∧ add_columns p = Ok r0 ∧
    isnan (estimated_total_pay r0) = false ∧
    missing_or_in buckets v ∧
    r = clean_skills (set_search_term v (reorder_columns r0)).
Proof.
  intros (_ & js & Hjs & ->)%data_prep_Ok Hr.
  apply list_elem_of_fmap in Hr as (r1 & -> & Hr1).
  apply list_elem_of_lookup in Hr1 as [k Hk].
  apply standardize_search_term_column_lookup in Hk as (r2 & v & Hk & -> & Hv).
  rewrite list_lookup_fmap in Hk.
  destruct (with_estimate js !! k) as [r0|] eqn:Hr0; [|done].
  injection Hk as <-.
  apply list_elem_of_lookup_2 in Hr0.
  apply list_elem_of_filter in Hr0 as [Hnan Hr0].
  apply list_elem_of_lookup in Hr0 as [n Hn].
  destruct (Forall2_lookup_r _ _ _ _ _ Hjs Hn) as (p & Hp & Hadd).
  apply list_elem_of_lookup_2, drop_duplicates_elem in Hp as [i Hi].
  by exists i, p, r0, v.
Qed.

End pipeline_records.

(** ** Further properties of the pipeline *)

(** X16. When [data_prep] returns, the URLs of the final table are, in
    order, those of the rows that are the first of their URL and have an
    estimate: the duplicates are removed before the rows without estimate. *)
Theorem data_prep_retained_urls (df : list posting) (out : list job) :
  data_prep df = Ok out →
  j_url <$> out
  = job_url <$> filter (λ p, has_estimate p = true) (drop_duplicates df).
Proof.
  apply data_prep_column; [done..|].
  by intros p r (_ & ? & _)%add_columns_fields.
Qed.

Lemma data_prep_retained_urls_witness :
  ∃ out,
    data_prep [unknown_posting; hourly_posting_with_amount; late_duplicate;
               hourly_posting_with_amount; fixed_posting_with_amount]
      = Ok out ∧
    j_url <$> out = [Some "https://www.upwork.com/jobs/1";
                     Some "https://www.upwork.com/jobs/2"].
Proof.
  eexists. split; [by vm_compute|].
  by rewrite (data_prep_retained_urls
    [unknown_posting; hourly_posting_with_amount; late_duplicate;
     hourly_posting_with_amount; fixed_posting_with_amount])
    by (by vm_compute).
Defined.

(** X17. No two records of the final table have the same URL. *)
Theorem data_prep_urls_distinct (df : list posting) (out : list job) :
  data_prep df = Ok out → NoDup (j_url <$> out).
Proof.
  intros H.
  rewrite (data_prep_column j_url job_url df out); [|done..| |done].
  - apply filter_NoDup_fmap, drop_duplicates_NoDup.
  - by intros p r (_ & ? & _)%add_columns_fields.
Qed.

Lemma data_prep_urls_distinct_witness :
  NoDup [Some "https://www.upwork.com/jobs/1";
         Some "https://www.upwork.com/jobs/2"].
Proof.
  apply (data_prep_urls_distinct
    [hourly_posting_with_amount; fixed_posting_with_amount;
     hourly_posting_with_amount]
    (match data_prep [hourly_posting_with_amount; fixed_posting_with_amount;
                      hourly_posting_with_amount] with
     | Ok out => out
     | Raise _ => []
     end)).
  by vm_compute.
Defined.

(** X18. Only the first row of a URL counts: the URL is in the final table
    exactly when that row has an estimate, whatever the later rows of the
    same URL hold. *)
Theorem data_prep_first_row_decides (df : list posting) (out : list job)
    (i : nat) (p : posting) :
  data_prep df = Ok out → first_of_url df i p →
  job_url p ∈ j_url <$> out ↔ has_estimate p = true.
Proof.
  intros H Hp.
  rewrite (data_prep_column j_url job_url df out); [|done..| |done];
    [|by intros q r (_ & ? & _)%add_columns_fields].
  split.
  - intros (q & E & [Hq Hin]%list_elem_of_filter)%list_elem_of_fmap.
    apply drop_duplicates_elem in Hin as [j Hj].
    by destruct (first_of_url_unique _ _ _ _ _ Hp Hj E) as [_ ->].
  - intros He. apply list_elem_of_fmap. exists p. split; [done|].
    apply list_elem_of_filter. split; [done|].
    apply drop_duplicates_elem. eauto.
Qed.

Lemma data_prep_first_row_decides_witness :
  ∃ out,
    data_prep [unknown_posting; late_duplicate] = Ok out ∧
    (job_url unknown_posting ∈ j_url <$> out ↔
     has_estimate unknown_posting = true) ∧
    has_estimate unknown_posting = false ∧
    has_estimate late_duplicate = true.
Proof.
  eexists. split; [by vm_compute|]. split; [|by vm_compute].
  apply (data_prep_first_row_decides [unknown_posting; late_duplicate] _ 0);
    [by vm_compute|].
  split; [done|]. intros j q Hj. lia.
Defined.

(** X19. [data_prep] raises [ValueError] exactly when the table has no row,
    or on some row that is the first of its URL [parse_hourly_rate] raises
    on the pay-type text or [parse_fixed_price] raises on the duration text,
    whatever the pay type of that row. *)
Theorem data_prep_raises_iff (df : list posting) :
  data_prep df = Raise ValueError ↔
  df = [] ∨
  ∃ i p, first_of_url df i p ∧
    (parse_hourly_rate (hourly_or_fixed p) = Raise ValueError ∨
     parse_fixed_price (duration_or_budget p) = Raise ValueError).
Proof.
  destruct (decide (df = [])) as [->|Hne]; [split; [by left|done]|].
  assert (data_prep df = Raise ValueError ↔
          mapM add_columns (drop_duplicates df) = Raise ValueError) as ->.
  { unfold data_prep, add_new_columns. apply drop_duplicates_nil in Hne.
    destruct (drop_duplicates df) as [|p0 l0]; [done|].
    by destruct (mapM _ _) as [js|[]]. }
  rewrite mapM_Raise. split.
  - intros (p & [i Hi]%drop_duplicates_elem & Hp%add_columns_Raise). eauto.
  - intros [?|(i & p & Hi & Hp)]; [done|]. exists p. split.
    + apply drop_duplicates_elem. eauto.
    + by apply add_columns_Raise.
Qed.

Lemma data_prep_raises_iff_witness :
  data_prep [] = Raise ValueError ∧
  data_prep [hourly_posting_with_amount; posting_with_stop]
  = Raise ValueError.
Proof.
  split; apply data_prep_raises_iff; [by left|right].
  exists 1, posting_with_stop. split.
  - split; [done|]. intros [|j] q Hj; [by intros [= <-]|lia].
  - by right.
Defined.

(** X20. Each record of the final table is computed from the row that is
    the first of its URL: it has the title, the description and the estimate
    of that row, and its skills are the clean forms of the skills of that
    row without the fifth one, which the reordering of the columns drops. *)
Theorem data_prep_record_origin (df : list posting) (out : list job) (r : job) :
  data_prep df = Ok out → r ∈ out →
  ∃ i p,
    first_of_url df i p ∧ j_url r = job_url p ∧ j_title r = job_title p ∧
    j_description r = job_description p ∧
    estimate_total_pay p = Ok (estimated_total_pay r) ∧
    j_skills r = clean_and_standardize_skill <$> delete 4 (skills p).
Proof.
  intros H Hr.
  destruct (data_prep_record df out r H Hr)
    as (i & p & r0 & v & Hi & Hadd & _ & _ & ->).
  apply add_columns_fields in Hadd as (Ht & Hu & _ & Hd & Hs & He).
  exists i, p. simpl. by rewrite Hs.
Qed.

Lemma data_prep_record_origin_witness :
  ∃ out r,
    data_prep [posting_with_skills] = Ok out ∧ r ∈ out ∧
    j_skills r
    = [Some "Python"; Some "Machine Learning"; Some "Time Series";
       Some "Statistics"; Some "Sql"; None; None; None; None; None; None;
       None].
Proof.
  eexists _, _. split; [by vm_compute|]. split; [by left|].
  destruct (data_prep_record_origin [posting_with_skills] _ _
              ltac:(by vm_compute) ltac:(by left))
    as (i & p & [Hi _] & _ & _ & _ & _ & Hs).
  destruct i as [|i]; [|done]. injection Hi as <-. rewrite Hs.
  by vm_compute.
Defined.

(** X21. The fill of the search terms runs over the retained rows only:
    the search-term column of the final table is the fill, lower case and
    table lookup of the search terms of the rows that are the first of their
    URL and have an estimate. A term stamped on a dropped row is lost. *)
Theorem data_prep_search_term_column (df : list posting) (out : list job) :
  data_prep df = Ok out →
  j_search_term <$> out
  = series_map search_term_map
      (str_lower
         (ffill (search_term <$>
                   filter (λ p, has_estimate p = true) (drop_duplicates df)))).
Proof.
  intros (_ & js & Hjs & ->)%data_prep_Ok.
  rewrite <- list_fmap_compose.
  change (j_search_term ∘ clean_skills) with j_search_term.
  rewrite standardize_search_term_column_column. do 3 f_equal.
  rewrite <- list_fmap_compose. unfold with_estimate. symmetry.
  apply (Forall2_filter_fmap (λ p r, add_columns p = Ok r)); [done|].
  intros p r (_ & _ & ? & _ & _ & ?)%add_columns_fields. split; [|done].
  symmetry. by apply has_estimate_spec.
Qed.

Lemma data_prep_search_term_column_witness :
  ∃ out,
    data_prep [unknown_posting; late_duplicate; posting_with_skills;
               fixed_posting_with_amount] = Ok out ∧
    j_search_term <$> out = [None; Some "ML"].
Proof.
  eexists. split; [by vm_compute|].
  by rewrite (data_prep_search_term_column
    [unknown_posting; late_duplicate; posting_with_skills;
     fixed_posting_with_amount]) by (by vm_compute).
Defined.



Section dashboard.

Lemma pays_of_cons skill sp sps :
  pays_of skill (sp :: sps)
  = if decide (sp.1 = skill) then sp.2 :: pays_of skill sps
    else pays_of skill sps.
Proof. unfold pays_of. rewrite filter_cons. by destruct (decide _). Qed.

Lemma foldl_add_pay acc sps skill :
  (foldl add_pay acc sps).1 !! skill
  = match pays_of skill sps with
    | [] => acc.1 !! skill
    | l => Some (foldl Qcplus (default 0%Qc (acc.1 !! skill)) l)
    end ∧
  (foldl add_pay acc sps).2 !! skill
  = match pays_of skill sps with
    | [] => acc.2 !! skill
    | l => Some (default 0 (acc.2 !! skill) + length l)
    end.
Proof.
  revert acc. induction sps as [|sp sps IH]; intros acc; [done|].
  cbn [foldl]. destruct (IH (add_pay acc sp)) as [-> ->].
  rewrite pays_of_cons. unfold add_pay. simpl.
  destruct (decide (sp.1 = skill)) as [<-|Hne].
  - rewrite !lookup_insert_eq. simpl.
    destruct (pays_of sp.1 sps); simpl; [split; [done|f_equal; lia]|].
    split; [done|]. f_equal. lia.
  - by rewrite !lookup_insert_ne.
Qed.

End dashboard.

Section dashboard_totals.

Lemma pay_totals_lookup sps skill :
  (pay_totals sps).1 !! skill
  = match pays_of skill sps with
    | [] => None
    | l => Some (sum_pays l)
    end ∧
  (pay_totals sps).2 !! skill
  = match pays_of skill sps with
    | [] => None
    | l => Some (length l)
    end.
Proof.
  unfold pay_totals. destruct (foldl_add_pay (∅, ∅) sps skill) as [-> ->].
  simpl. rewrite !lookup_empty. done.
Qed.

Lemma skill_pay_elem_aux ncols df skill pay :
  (skill, pay) ∈ skill_pay ncols df ↔
  skill ≠ "" ∧
  ∃ r c, r ∈ df ∧ c < ncols ∧ j_skills r !! c = Some (Some skill) ∧
         estimated_total_pay r = Num pay.
Proof.
  unfold skill_pay, col_skills. rewrite list_elem_of_bind. split.
  - intros (c & [Hne (r & Hr & Hsp)%list_elem_of_omap]%list_elem_of_filter
              & [_ Hc]%elem_of_seq).
    split; [done|]. exists r, c. split; [done|]. split; [lia|].
    destruct (j_skills r !! c) as [[s|]|]; try done.
    destruct (estimated_total_pay r); [done|]. by simplify_eq.
  - intros (Hne & r & c & Hr & Hc & Hs & Hp). exists c. split.
    + apply list_elem_of_filter. split; [done|].
      apply list_elem_of_omap. exists r. split; [done|]. by rewrite Hs, Hp.
    + apply elem_of_seq. lia.
Qed.

End dashboard_totals.

(** ** Properties of the skill chart of the dashboard *)

(** X23. The pairs that the dashboard gathers for its skill chart are the
    skills that are present and not empty, of the first [ncols] skill
    columns, in the rows of the selected search term (all rows for 'All')
    whose estimate is present, each with that estimate. *)
Theorem skill_pay_elem (selected : string) (ncols : nat) (df : list job)
    (skill : string) (pay : Qc) :
  (skill, pay) ∈ skill_pay ncols (filtered_df selected df) ↔
  (skill ≠ "") ∧
  ∃ r c, r ∈ df ∧ (selected = "All" ∨ j_search_term r = Some selected) ∧
         c < ncols ∧ j_skills r !! c = Some (Some skill) ∧
         estimated_total_pay r = Num pay.
Proof.
  rewrite skill_pay_elem_aux. unfold filtered_df. split.
  - intros (Hne & r & c & Hr & H). split; [done|]. exists r, c.
    destruct (decide (selected = "All")) as [->|Hsel]; [by auto|].
    apply list_elem_of_filter in Hr as [Hst Hr]. by auto.
  - intros (Hne & r & c & Hr & Hsel & H). split; [done|]. exists r, c.
    split; [|done].
    destruct (decide (selected = "All")) as [->|Hsel']; [done|].
    apply list_elem_of_filter. split; [|done]. by destruct Hsel.
Qed.

Lemma skill_pay_elem_witness :
  ("Python", of_Z 750)
  ∈ skill_pay 2
      (filtered_df "ML"
         [Job None None (Some "AI") None NaN NaN NaN NaN NaN (Num (of_Z 20))
            None [Some "Python"];
          Job None None (Some "ML") None NaN NaN NaN NaN NaN (Num (of_Z 750))
            None [None; Some "Python"]]).
Proof.
  apply skill_pay_elem. split; [done|].
  eexists _, 1. split; [by right; left|]. split; [by right|].
  split; [lia|]. by split.
Defined.

(** X24. After the loop over [skill_pay], the two dictionaries hold, for
    each skill gathered, the sum of its pays in the order of the list and the
    number of its pairs, and no entry for any other skill. *)
Theorem pay_totals_spec (sps : list (string * Qc)) (skill : string) :
  match pays_of skill sps with
  | [] => (pay_totals sps).1 !! skill = None ∧
          (pay_totals sps).2 !! skill = None
  | l => (pay_totals sps).1 !! skill = Some (sum_pays l) ∧
         (pay_totals sps).2 !! skill = Some (length l)
  end.
Proof.
  destruct (pay_totals_lookup sps skill) as [-> ->].
  by destruct (pays_of skill sps).
Qed.

(** X25. The average pay of the chart never divides by zero: [avg_pay]
    returns, with an entry exactly for the skills gathered, the sum of the
    pays of the skill divided by the number of its pairs. *)
Theorem avg_pay_defined (sps : list (string * Qc)) :
  ∃ avg,
    avg_pay (pay_totals sps).1 (pay_totals sps).2 = Some avg ∧
    ∀ skill,
      avg !! skill
      = match pays_of skill sps with
        | [] => None
        | l => Some (sum_pays l / of_nat (length l))%Qc
        end.
Proof.
  unfold avg_pay. destruct (decide _) as [_|Hno].
  - eexists. split; [done|]. intros skill. rewrite map_lookup_imap.
    destruct (pay_totals_lookup sps skill) as [-> ->].
    by destruct (pays_of skill sps).
  - destruct Hno. intros skill total.
    destruct (pay_totals_lookup sps skill) as [-> ->].
    by destruct (pays_of skill sps).
Qed.
